(** * Watermark engine: region resolver, alpha-map cache, reverse compositor

    A shallow embedding of [src/js/core/watermarkEngine.js] (the current
    version of the module, with the Gemini size buckets and the linear
    interpolation for large images), of the queue of [imageProcessor.js],
    of the download names of [download.js] and of the provenance check of
    [utils.js] with [i18n.t], and properties of them.

    JavaScript numbers are modelled by exact arithmetic: image dimensions
    and pixel counts are integers ([Z]); the few fractional quantities (the
    aspect ratio, the scale factor, the interpolation lines, opacities) are
    rationals ([Q]).  The source computes them in binary64; the two agree on
    a comparison or a [Math.round] whenever the exact value is not within
    floating-point error of the threshold or of a tie.  The thresholds 0.8
    and 1.2 are met exactly by ratios such as 4/5 and 6/5, which binary64
    rounds to the very constants they are compared with. *)

From Stdlib Require Import ZArith QArith Qround Qabs Lia Lqa Ascii.
From stdpp Require Import base strings pretty gmap list functions.

Local Open Scope Z_scope.

(** ** JavaScript primitives used by the module *)

Module Js.

(** [Math.round]: nearest integer, ties towards plus infinity. *)
Definition Math_round (x : Q) : Z := Qfloor (x + (1 # 2)).

(** [a < b] and [a > b] on numbers. *)
Definition ltb (a b : Q) : bool := negb (Qle_bool b a).
Definition gtb (a b : Q) : bool := ltb b a.

(** [a / b] for integer-valued numbers with [b] non-zero. *)
Definition div (a b : Z) : Q := (inject_Z a / inject_Z b)%Q.

(** Template-literal conversion of an integer-valued number. *)
Definition toString (n : Z) : string := pretty n.

End Js.

(** ** Constants *)

(** [WATERMARK_TYPE] *)
Module WATERMARK_TYPE.
Definition GEMINI : string := "gemini".
Definition DOUBAO : string := "doubao".
Definition UNKNOWN : string := "unknown".
Definition values : list string := [GEMINI; DOUBAO; UNKNOWN].
End WATERMARK_TYPE.

(** The keys of [DOUBAO_BG_PATHS] and [DOUBAO_CONFIGS]. *)
Inductive AspectCategory := Cat1x1 | Cat2x3 | Cat3x2.

Definition aspectName (c : AspectCategory) : string :=
  match c with Cat1x1 => "1x1" | Cat2x3 => "2x3" | Cat3x2 => "3x2" end.

(** The values of [sizeCategory]. *)
Inductive SizeCategory := small | medium | large.

Definition sizeName (c : SizeCategory) : string :=
  match c with small => "small" | medium => "medium" | large => "large" end.

(** The values of [sourceTemplate]. *)
Inductive SourceTemplate := T48 | T96.

(** One entry of [DOUBAO_CONFIGS]. *)
Record DoubaoRef := {
  refWidth : Z;
  refHeight : Z;
  wmWidth : Z;
  wmHeight : Z;
  refMarginRight : Z;
  refMarginBottom : Z
}.

Definition DOUBAO_CONFIGS (c : AspectCategory) : DoubaoRef :=
  match c with
  | Cat1x1 => {| refWidth := 2048; refHeight := 2048; wmWidth := 282;
                 wmHeight := 123; refMarginRight := 57; refMarginBottom := 54 |}
  | Cat2x3 => {| refWidth := 1672; refHeight := 2508; wmWidth := 225;
                 wmHeight := 43; refMarginRight := 50; refMarginBottom := 50 |}
  | Cat3x2 => {| refWidth := 2508; refHeight := 1672; wmWidth := 296;
                 wmHeight := 71; refMarginRight := 53; refMarginBottom := 53 |}
  end.

(** [GEMINI_SCALING] *)
Module GEMINI_SCALING.
Definition smallMaxEdge : Z := 1024.
Definition sizeSlope : Q := 762376 # 10000000.
Definition sizeIntercept : Q := - (6015 # 100).
Definition marginSlope : Q := 396040 # 10000000.
Definition marginIntercept : Q := - (1711 # 100).
End GEMINI_SCALING.

(** ** Region resolver *)

(** The configuration object returned by [detectWatermarkConfig].  Fields
    that only one of the two variants sets are optional. *)
Record WatermarkConfig := {
  type : string;
  aspectCategory : option AspectCategory;
  sizeCategory : option SizeCategory;
  width : Z;
  height : Z;
  logoSize : option Z;
  marginRight : Z;
  marginBottom : Z;
  sourceTemplate : option SourceTemplate;
  refConfig : option DoubaoRef
}.

Definition getDoubaoAspectCategory (imageWidth imageHeight : Z) : AspectCategory :=
  let ratio := Js.div imageWidth imageHeight in
  if Js.ltb ratio (8 # 10) then Cat2x3
  else if Js.gtb ratio (12 # 10) then Cat3x2
  else Cat1x1.

(** The two interpolation lines of the large bucket, before and after
    rounding. *)
Definition geminiSizeLine (shortEdge : Z) : Q :=
  (GEMINI_SCALING.sizeSlope * inject_Z shortEdge + GEMINI_SCALING.sizeIntercept)%Q.

Definition geminiMarginLine (shortEdge : Z) : Q :=
  (GEMINI_SCALING.marginSlope * inject_Z shortEdge + GEMINI_SCALING.marginIntercept)%Q.

Definition calculateGeminiConfig (imageWidth imageHeight : Z) : WatermarkConfig :=
  let shortEdge := Z.min imageWidth imageHeight in
  if shortEdge <=? GEMINI_SCALING.smallMaxEdge then
    {| type := WATERMARK_TYPE.GEMINI; aspectCategory := None;
       sizeCategory := Some small; width := 48; height := 48;
       logoSize := Some 48; marginRight := 32; marginBottom := 32;
       sourceTemplate := Some T48; refConfig := None |}
  else if shortEdge <=? 2048 then
    {| type := WATERMARK_TYPE.GEMINI; aspectCategory := None;
       sizeCategory := Some medium; width := 96; height := 96;
       logoSize := Some 96; marginRight := 64; marginBottom := 64;
       sourceTemplate := Some T96; refConfig := None |}
  else
    let logoSize := Js.Math_round (geminiSizeLine shortEdge) in
    let margin := Js.Math_round (geminiMarginLine shortEdge) in
    {| type := WATERMARK_TYPE.GEMINI; aspectCategory := None;
       sizeCategory := Some large; width := logoSize; height := logoSize;
       logoSize := Some logoSize; marginRight := margin; marginBottom := margin;
       sourceTemplate := Some T96; refConfig := None |}.

Definition detectWatermarkConfig (imageWidth imageHeight : Z)
    (watermarkType : string) : WatermarkConfig :=
  if String.eqb watermarkType WATERMARK_TYPE.DOUBAO then
    let aspectCategory := getDoubaoAspectCategory imageWidth imageHeight in
    let config := DOUBAO_CONFIGS aspectCategory in
    let refShortEdge := Z.min (refWidth config) (refHeight config) in
    let imgShortEdge := Z.min imageWidth imageHeight in
    let scale := Js.div imgShortEdge refShortEdge in
    let wmWidth := Js.Math_round (inject_Z (wmWidth config) * scale) in
    let wmHeight := Js.Math_round (inject_Z (wmHeight config) * scale) in
    let marginRight := Js.Math_round (inject_Z (refMarginRight config) * scale) in
    let marginBottom := Js.Math_round (inject_Z (refMarginBottom config) * scale) in
    {| type := WATERMARK_TYPE.DOUBAO; aspectCategory := Some aspectCategory;
       sizeCategory := None; width := wmWidth; height := wmHeight;
       logoSize := None; marginRight := marginRight; marginBottom := marginBottom;
       sourceTemplate := None; refConfig := Some config |}
  else calculateGeminiConfig imageWidth imageHeight.

(** The rectangle returned by [calculateWatermarkPosition]. *)
Record WatermarkRect := {
  x : Z;
  y : Z;
  rectWidth : Z;
  rectHeight : Z
}.

Definition calculateWatermarkPosition (imageWidth imageHeight : Z)
    (config : WatermarkConfig) : WatermarkRect :=
  {| x := imageWidth - marginRight config - width config;
     y := imageHeight - marginBottom config - height config;
     rectWidth := width config;
     rectHeight := height config |}.

(** ** Pixel data and the engine state *)

(** An image as the canvas hands it out: [width], [height] and the
    row-major RGBA bytes ([ImageData.data], a [Uint8ClampedArray]).  The
    same record stands for a decoded [HTMLImageElement] and for the content
    of a canvas. *)
Module ImageData.
Record t := mk { width : Z; height : Z; data : list Z }.
End ImageData.

(** A [Float32Array] of opacities, one per pixel of the watermark. *)
Definition AlphaMap := list Q.

(** Exceptions the canvas raises. *)
Inductive DOMException := IndexSizeError.

(** The outcome of a call that may throw. *)
Inductive Completion (A : Type) :=
  | Normal (a : A)
  | Throw (e : DOMException).
Arguments Normal {A} a.
Arguments Throw {A} e.

Definition isThrow {A} (c : Completion A) : bool :=
  match c with Normal _ => false | Throw _ => true end.

(** The parts of the repository and of the browser that the engine calls
    and that are not in this module: the constant tint of the compositor,
    the canvas resampling [drawImage(bg, 0, 0, sw, sh, 0, 0, dw, dh)]
    followed by [getImageData], and [calculateAlphaMap] of [alphaMap.js]. *)
Record Platform := {
  tint : Q;
  drawImageScaled : ImageData.t -> Z -> Z -> Z -> Z -> ImageData.t;
  calculateAlphaMap : ImageData.t -> AlphaMap
}.

(** [bgCaptures] *)
Record BgCaptures := {
  bg48 : ImageData.t;
  bg96 : ImageData.t;
  doubao : AspectCategory -> ImageData.t
}.

Record WatermarkEngine := {
  bgCaptures : BgCaptures;
  alphaMaps : gmap string AlphaMap;
  currentWatermarkType : string
}.

(** The constructor. *)
Definition newWatermarkEngine (captures : BgCaptures) : WatermarkEngine :=
  {| bgCaptures := captures; alphaMaps := ∅;
     currentWatermarkType := WATERMARK_TYPE.GEMINI |}.

Definition setWatermarkType (eng : WatermarkEngine) (t : string) : WatermarkEngine :=
  if bool_decide (t ∈ WATERMARK_TYPE.values) then
    {| bgCaptures := bgCaptures eng; alphaMaps := alphaMaps eng;
       currentWatermarkType := t |}
  else eng.

(** ** Alpha-map cache *)

(** The template literal
    [`${type}_${aspectCategory || sizeCategory || 'default'}_${width}x${height}`]. *)
Definition categoryName (config : WatermarkConfig) : string :=
  match aspectCategory config with
  | Some c => aspectName c
  | None =>
      match sizeCategory config with
      | Some s => sizeName s
      | None => "default"
      end
  end.

Definition cacheKey (config : WatermarkConfig) : string :=
  type config +:+ "_" +:+ categoryName config +:+ "_" +:+
  Js.toString (width config) +:+ "x" +:+ Js.toString (height config).

(** Which reference capture [getAlphaMap] scales from. *)
Inductive CaptureKey := CapBg48 | CapBg96 | CapDoubao (c : AspectCategory).

(** The branch of [getAlphaMap] that picks [bgImage]. *)
Definition selectCapture (config : WatermarkConfig) : CaptureKey :=
  if String.eqb (type config) WATERMARK_TYPE.DOUBAO then
    CapDoubao (default Cat1x1 (aspectCategory config))
  else if match sourceTemplate config with Some T48 => true | _ => false end
          || match logoSize config with Some n => n <=? 48 | None => false end
  then CapBg48
  else CapBg96.

Definition lookupCapture (captures : BgCaptures) (k : CaptureKey) : ImageData.t :=
  match k with
  | CapBg48 => bg48 captures
  | CapBg96 => bg96 captures
  | CapDoubao c => doubao captures c
  end.

(** [srcWidth], [srcHeight] of the same branch. *)
Definition sourceSize (captures : BgCaptures) (k : CaptureKey) : Z * Z :=
  match k with
  | CapBg48 => (48, 48)
  | CapBg96 => (96, 96)
  | CapDoubao c =>
      (ImageData.width (doubao captures c), ImageData.height (doubao captures c))
  end.

(** What [getAlphaMap] computes on a cache miss; [getImageData] raises
    [IndexSizeError] on an empty rectangle. *)
Definition deriveAlphaMap (P : Platform) (captures : BgCaptures)
    (config : WatermarkConfig) : Completion AlphaMap :=
  let k := selectCapture config in
  let bgImage := lookupCapture captures k in
  let '(srcWidth, srcHeight) := sourceSize captures k in
  if (width config =? 0) || (height config =? 0) then Throw IndexSizeError
  else
    let imageData :=
      drawImageScaled P bgImage srcWidth srcHeight (width config) (height config) in
    Normal (calculateAlphaMap P imageData).

Definition getAlphaMap (P : Platform) (eng : WatermarkEngine)
    (config : WatermarkConfig) : Completion (WatermarkEngine * AlphaMap) :=
  let key := cacheKey config in
  match alphaMaps eng !! key with
  | Some cached => Normal (eng, cached)
  | None =>
      match deriveAlphaMap P (bgCaptures eng) config with
      | Throw e => Throw e
      | Normal alphaMap =>
          Normal ({| bgCaptures := bgCaptures eng;
                     alphaMaps := <[key := alphaMap]> (alphaMaps eng);
                     currentWatermarkType := currentWatermarkType eng |},
                  alphaMap)
      end
  end.

(** ** Reverse compositor *)

(** The reverse compositor is [removeWatermark] of [blendModes.js], which
    is not among the sources at hand; the definitions of this module follow
    section 4.3 of the specification. *)
Module ReverseBlend.

(** Modelled from the spec: the safety ceiling of [blendModes.js]: the
    opacity is clamped to at most a safety ceiling (e.g., 0.999) before the
    division. *)
Definition ALPHA_CEILING : Q := 999 # 1000.

(** Modelled from the spec: the clamp of the opacity in [removeWatermark]
    of [blendModes.js], to at most the ceiling. *)
Definition capAlpha (a : Q) : Q :=
  if Qle_bool a ALPHA_CEILING then a else ALPHA_CEILING.

(** Modelled from the spec: the clamp of a restored channel in
    [removeWatermark] of [blendModes.js], to the range of a byte. *)
Definition clampByte (v : Z) : Z := Z.max 0 (Z.min 255 v).

(** Modelled from the spec: the forward model the compositor of
    [blendModes.js] inverts, [C_obs = a * F + (1 - a) * C_true]. *)
Definition forward (F : Q) (c_true : Z) (a : Q) : Q :=
  (a * F + (1 - a) * inject_Z c_true)%Q.

(** Modelled from the spec: the inversion in [removeWatermark] of
    [blendModes.js], [C_true = (C_obs - a * F) / (1 - a)] with [a] capped,
    then rounded and clamped. *)
Definition invert (F : Q) (c_obs : Q) (a : Q) : Z :=
  let a' := capAlpha a in
  clampByte (Js.Math_round ((c_obs - a' * F) / (1 - a'))).

(** Modelled from the spec: the inversion in [removeWatermark] of
    [blendModes.js] applied to a byte of the buffer. *)
Definition restoreChannel (F : Q) (c_obs : Z) (a : Q) : Z :=
  invert F (inject_Z c_obs) a.

(** Modelled from the spec: where [removeWatermark] of [blendModes.js]
    finds the pixel [(px, py)] in the buffer.  The buffer is the [data] of an
    [ImageData]: the pixels row after row, four bytes (R, G, B, A) each, so
    the first byte of the pixel is at [4 * (py * width + px)]. *)
Definition pixelOffset (img : ImageData.t) (px py : Z) : Z :=
  (py * ImageData.width img + px) * 4.

(** Modelled from the spec: the body of the loop of [removeWatermark] of
    [blendModes.js].  For the pixel at offset [(col, row)] of the rectangle
    the bytes R, G, B are restored with the opacity [alphaMap[col, row]];
    the alpha byte is left as it is.  Section 4.3 states no test of the
    pixel against the bounds of the image, and none is made here.  The
    buffer is a typed array: at an index it does not have (a negative one,
    or one past its end) nothing is read and the write is ignored. *)
Definition restorePixel (F : Q) (img : ImageData.t) (alphaMap : AlphaMap)
    (rect : WatermarkRect) (row col : Z) (d : list Z) : list Z :=
  let idx := pixelOffset img (x rect + col) (y rect + row) in
  match alphaMap !! Z.to_nat (row * rectWidth rect + col) with
  | Some a =>
      foldl (fun d c =>
               let i := idx + c in
               if i <? 0 then d
               else match d !! Z.to_nat i with
                    | Some v => <[Z.to_nat i := restoreChannel F v a]> d
                    | None => d
                    end) d [0; 1; 2]
  | None => d
  end.

(** Modelled from the spec: one row of the rectangle in [removeWatermark]
    of [blendModes.js]. *)
Definition restoreRow (F : Q) (img : ImageData.t) (alphaMap : AlphaMap)
    (rect : WatermarkRect) (d : list Z) (row : Z) : list Z :=
  foldl (fun d col => restorePixel F img alphaMap rect row col d) d
        (seqZ 0 (rectWidth rect)).

(** Modelled from the spec: [removeWatermark] of [blendModes.js], which
    visits every pixel (x, y) inside the rectangle; the buffer is mutated in
    place and nothing is returned, so the result here is the buffer after
    the call. *)
Definition removeWatermark (F : Q) (img : ImageData.t) (alphaMap : AlphaMap)
    (rect : WatermarkRect) : ImageData.t :=
  ImageData.mk (ImageData.width img) (ImageData.height img)
    (foldl (restoreRow F img alphaMap rect) (ImageData.data img)
           (seqZ 0 (rectHeight rect))).

End ReverseBlend.

(** ** Orchestrator *)

(** [watermarkType || this.currentWatermarkType]: [null] and the empty
    string give way to the engine's current type. *)
Definition effectiveType (eng : WatermarkEngine) (watermarkType : option string)
    : string :=
  match watermarkType with
  | Some t => if String.eqb t EmptyString then currentWatermarkType eng else t
  | None => currentWatermarkType eng
  end.

(** [removeWatermarkFromImage]: the image is drawn on a canvas of its own
    size, the region is resolved from the canvas size, the alpha map is
    fetched and the compositor runs on the canvas pixels.  The result is the
    engine (with its cache) and the content of the returned canvas. *)
Definition removeWatermarkFromImage (P : Platform) (eng : WatermarkEngine)
    (image : ImageData.t) (watermarkType : option string)
    : Completion (WatermarkEngine * ImageData.t) :=
  let type := effectiveType eng watermarkType in
  let canvasWidth := ImageData.width image in
  let canvasHeight := ImageData.height image in
  if (canvasWidth =? 0) || (canvasHeight =? 0) then Throw IndexSizeError
  else
    let imageData := image in
    let config := detectWatermarkConfig canvasWidth canvasHeight type in
    let position := calculateWatermarkPosition canvasWidth canvasHeight config in
    match getAlphaMap P eng config with
    | Throw e => Throw e
    | Normal (eng', alphaMap) =>
        Normal (eng', ReverseBlend.removeWatermark (tint P) imageData alphaMap position)
    end.

(** ** Initialisation *)

(** The five images [WatermarkEngine.create] loads. *)
Inductive Slot := SlotBg48 | SlotBg96 | SlotDoubao (c : AspectCategory).

Global Instance AspectCategory_eq_dec : EqDecision AspectCategory.
Proof. solve_decision. Defined.

Global Instance Slot_eq_dec : EqDecision Slot.
Proof. solve_decision. Defined.

(** What the browser reports for one image: [onload] (with the decoded
    image) or [onerror]. *)
Inductive LoadEvent :=
  | onload (s : Slot) (img : ImageData.t)
  | onerror (s : Slot).

Definition eventSlot (ev : LoadEvent) : Slot :=
  match ev with onload s _ => s | onerror s => s end.

(** The state of one of the five promises. *)
Inductive PromiseState :=
  | Pending
  | Fulfilled (img : ImageData.t)
  | Rejected.

(** The state of [Promise.all]: the five promises and, once one of them has
    rejected, the slot whose rejection settled the whole. *)
Record AllState := {
  promises : Slot -> PromiseState;
  rejectedBy : option Slot
}.

Definition initialState : AllState :=
  {| promises := fun _ => Pending; rejectedBy := None |}.

(** One browser event: it settles the promise of its slot when that is
    still pending (a settled promise ignores later calls of [resolve] and
    [reject]); the first rejection rejects [Promise.all]. *)
Definition settle (st : AllState) (ev : LoadEvent) : AllState :=
  match promises st (eventSlot ev) with
  | Pending =>
      match ev with
      | onload s img =>
          {| promises := <[s := Fulfilled img]> (promises st);
             rejectedBy := rejectedBy st |}
      | onerror s =>
          {| promises := <[s := Rejected]> (promises st);
             rejectedBy := match rejectedBy st with
                           | Some r => Some r
                           | None => Some s
                           end |}
      end
  | _ => st
  end.

(** The result of [await WatermarkEngine.create()]. *)
Inductive CreateResult :=
  | Ready (eng : WatermarkEngine)
  | InitializationFailed (s : Slot)
  | Suspended.

Definition fulfilledImage (st : AllState) (s : Slot) : option ImageData.t :=
  match promises st s with Fulfilled img => Some img | _ => None end.

Definition create (events : list LoadEvent) : CreateResult :=
  let st := foldl settle initialState events in
  match rejectedBy st with
  | Some s => InitializationFailed s
  | None =>
      match fulfilledImage st SlotBg48, fulfilledImage st SlotBg96,
            fulfilledImage st (SlotDoubao Cat1x1),
            fulfilledImage st (SlotDoubao Cat2x3),
            fulfilledImage st (SlotDoubao Cat3x2) with
      | Some i48, Some i96, Some d11, Some d23, Some d32 =>
          Ready (newWatermarkEngine
                   {| bg48 := i48; bg96 := i96;
                      doubao := fun c => match c with
                                         | Cat1x1 => d11
                                         | Cat2x3 => d23
                                         | Cat3x2 => d32
                                         end |})
      | _, _, _, _, _ => Suspended
      end
  end.

(** The capture an engine holds for a slot. *)
Definition slotCapture (captures : BgCaptures) (s : Slot) : ImageData.t :=
  match s with
  | SlotBg48 => bg48 captures
  | SlotBg96 => bg96 captures
  | SlotDoubao c => doubao captures c
  end.

(** The first event the browser reports for a slot. *)
Fixpoint firstEvent (s : Slot) (events : list LoadEvent) : option LoadEvent :=
  match events with
  | [] => None
  | ev :: rest =>
      if decide (eventSlot ev = s) then Some ev else firstEvent s rest
  end.

(** ** Notions the properties are stated with *)

(** The character [c] does not occur in [s]. *)
Fixpoint lacks (c : ascii) (s : string) : Prop :=
  match s with
  | EmptyString => True
  | String a rest => a <> c /\ lacks c rest
  end.

(** Every entry of the cache that a resolved configuration can hit is the
    alpha map derived for that configuration. *)
Definition cacheSound (P : Platform) (eng : WatermarkEngine) : Prop :=
  forall (w h : Z) (t : string) (cached : AlphaMap),
    alphaMaps eng !! cacheKey (detectWatermarkConfig w h t) = Some cached ->
    deriveAlphaMap P (bgCaptures eng) (detectWatermarkConfig w h t)
      = Normal cached.

(** The type and category names the resolver produces. *)
Inductive KeyPrefix := KGemini (s : SizeCategory) | KDoubao (c : AspectCategory).

Definition prefixOf (k : KeyPrefix) : string * string :=
  match k with
  | KGemini s => (WATERMARK_TYPE.GEMINI, sizeName s)
  | KDoubao c => (WATERMARK_TYPE.DOUBAO, aspectName c)
  end.

Definition keyOf (k : KeyPrefix) (w h : Z) : string :=
  (prefixOf k).1 +:+ "_" +:+ (prefixOf k).2 +:+ "_" +:+
  Js.toString w +:+ "x" +:+ Js.toString h.

(** The capture [getAlphaMap] scales from, for a configuration with this
    key prefix and width. *)
Definition captureFor (k : KeyPrefix) (width : Z) : CaptureKey :=
  match k with
  | KDoubao c => CapDoubao c
  | KGemini small => CapBg48
  | KGemini medium => CapBg96
  | KGemini large => if width <=? 48 then CapBg48 else CapBg96
  end.

(** The promise of a slot after its first event. *)
Definition outcomeOf (first : option LoadEvent) : PromiseState :=
  match first with
  | Some (onload _ img) => Fulfilled img
  | Some (onerror _) => Rejected
  | None => Pending
  end.

(** [Promise.all] is rejected by a slot whose promise is rejected, and is
    not rejected while no promise is. *)
Definition rejectionConsistent (st : AllState) : Prop :=
  match rejectedBy st with
  | Some r => promises st r = Rejected
  | None => forall s, promises st s <> Rejected
  end.

(** [n] is the integer nearest to [q], the upper one at a tie. *)
Definition nearestInteger (q : Q) (n : Z) : Prop :=
  (inject_Z n - (1 # 2) <= q /\ q < inject_Z n + (1 # 2))%Q.

(** The scaling rule in the specification's words: every measured quantity
    of the bucket's reference configuration is multiplied by
    [targetShortEdge / referenceShortEdge]. *)
Definition shortEdgeFactor (imageWidth imageHeight : Z) (ref : DoubaoRef) : Q :=
  (inject_Z (Z.min imageWidth imageHeight)
   / inject_Z (Z.min (refWidth ref) (refHeight ref)))%Q.

(** [b] is an integer nearest to [v]: what a byte buffer holds after [v] is
    stored in it, whichever way a tie is broken. *)
Definition storedAs (v : Q) (b : Z) : Prop :=
  (inject_Z b - (1 # 2) <= v /\ v <= inject_Z b + (1 # 2))%Q.

Definition withinOne (n m : Z) : Prop := Z.abs (n - m) <= 1.

(** The rectangle lies fully within the image. *)
Definition rectFits (rect : WatermarkRect) (imageWidth imageHeight : Z) : bool :=
  (0 <=? x rect) && (0 <=? y rect)
  && (x rect + rectWidth rect <=? imageWidth)
  && (y rect + rectHeight rect <=? imageHeight).




(** ** A platform and an engine to evaluate calls on *)

(** A white tint, a resampler that only sizes its output, and an alpha map
    of constant opacity one half. *)
Definition examplePlatform : Platform :=
  {| tint := 255;
     drawImageScaled := fun _ _ _ dw dh => ImageData.mk dw dh [];
     calculateAlphaMap := fun d =>
       replicate (Z.to_nat (ImageData.width d * ImageData.height d)) (1 # 2)%Q |}.

Definition exampleCaptures : BgCaptures :=
  {| bg48 := ImageData.mk 48 48 [];
     bg96 := ImageData.mk 96 96 [];
     doubao := fun _ => ImageData.mk 300 200 [] |}.

Definition exampleEngine : WatermarkEngine := newWatermarkEngine exampleCaptures.

(** An image every byte of which is 200. *)
Definition greyImage (w h : Z) : ImageData.t :=
  ImageData.mk w h (replicate (Z.to_nat (w * h * 4)) 200).

(** ** The rest of the engine's interface *)

(** [getWatermarkType] *)
Definition getWatermarkType (eng : WatermarkEngine) : string :=
  currentWatermarkType eng.

(** A call on the engine, and the engine it leaves; a call that throws
    leaves the engine as it was. *)
Inductive EngineCall :=
  | CallSetWatermarkType (t : string)
  | CallGetAlphaMap (imageWidth imageHeight : Z) (t : string)
  | CallRemoveWatermark (image : ImageData.t) (watermarkType : option string).

Definition engineAfter (P : Platform) (eng : WatermarkEngine) (call : EngineCall)
    : WatermarkEngine :=
  match call with
  | CallSetWatermarkType t => setWatermarkType eng t
  | CallGetAlphaMap w h t =>
      match getAlphaMap P eng (detectWatermarkConfig w h t) with
      | Normal (eng', _) => eng'
      | Throw _ => eng
      end
  | CallRemoveWatermark image watermarkType =>
      match removeWatermarkFromImage P eng image watermarkType with
      | Normal (eng', _) => eng'
      | Throw _ => eng
      end
  end.

(** The pixels a call returns, the engine left aside. *)
Definition pixelsOf (c : Completion (WatermarkEngine * ImageData.t))
    : Completion ImageData.t :=
  match c with
  | Normal (_, out) => Normal out
  | Throw e => Throw e
  end.

(** The engine with its cache emptied. *)
Definition withEmptyCache (eng : WatermarkEngine) : WatermarkEngine :=
  {| bgCaptures := bgCaptures eng; alphaMaps := ∅;
     currentWatermarkType := currentWatermarkType eng |}.

(** What holds of every engine that [create] and later calls produce. *)
Definition engineInvariant (P : Platform) (captures : BgCaptures)
    (eng : WatermarkEngine) : Prop :=
  cacheSound P eng
  /\ bgCaptures eng = captures
  /\ currentWatermarkType eng ∈ WATERMARK_TYPE.values.

(** The second variant of the module that the source file holds after the
    first: the Gemini rule has two fixed sizes and no interpolation, and the
    '2x3' reference configuration differs. *)
Module TwoBucket.

Definition DOUBAO_CONFIGS (c : AspectCategory) : DoubaoRef :=
  match c with
  | Cat1x1 => {| refWidth := 2048; refHeight := 2048; wmWidth := 282;
                 wmHeight := 123; refMarginRight := 57; refMarginBottom := 54 |}
  | Cat2x3 => {| refWidth := 1536; refHeight := 2730; wmWidth := 298;
                 wmHeight := 199; refMarginRight := 0; refMarginBottom := 0 |}
  | Cat3x2 => {| refWidth := 2508; refHeight := 1672; wmWidth := 296;
                 wmHeight := 71; refMarginRight := 53; refMarginBottom := 53 |}
  end.

Definition detectWatermarkConfig (imageWidth imageHeight : Z)
    (watermarkType : string) : WatermarkConfig :=
  if String.eqb watermarkType WATERMARK_TYPE.DOUBAO then
    let aspectCategory := getDoubaoAspectCategory imageWidth imageHeight in
    let config := DOUBAO_CONFIGS aspectCategory in
    let refShortEdge := Z.min (refWidth config) (refHeight config) in
    let imgShortEdge := Z.min imageWidth imageHeight in
    let scale := Js.div imgShortEdge refShortEdge in
    let wmWidth := Js.Math_round (inject_Z (wmWidth config) * scale) in
    let wmHeight := Js.Math_round (inject_Z (wmHeight config) * scale) in
    let marginRight := Js.Math_round (inject_Z (refMarginRight config) * scale) in
    let marginBottom := Js.Math_round (inject_Z (refMarginBottom config) * scale) in
    {| type := WATERMARK_TYPE.DOUBAO; aspectCategory := Some aspectCategory;
       sizeCategory := None; width := wmWidth; height := wmHeight;
       logoSize := None; marginRight := marginRight; marginBottom := marginBottom;
       sourceTemplate := None; refConfig := Some config |}
  else if (1024 <? imageWidth) && (1024 <? imageHeight) then
    {| type := WATERMARK_TYPE.GEMINI; aspectCategory := None;
       sizeCategory := None; width := 96; height := 96;
       logoSize := Some 96; marginRight := 64; marginBottom := 64;
       sourceTemplate := None; refConfig := None |}
  else
    {| type := WATERMARK_TYPE.GEMINI; aspectCategory := None;
       sizeCategory := None; width := 48; height := 48;
       logoSize := Some 48; marginRight := 32; marginBottom := 32;
       sourceTemplate := None; refConfig := None |}.

End TwoBucket.

(** ** The image queue ([imageProcessor.js]) *)

(** What the queue reads of a [File]. *)
Module File.
Record t := mk { name : string; type : string; size : Z }.
End File.

(** [sub] occurs in [s]. *)
Fixpoint includes (sub s : string) : bool :=
  String.prefix sub s
  || match s with
     | EmptyString => false
     | String _ rest => includes sub rest
     end.

(** [type.match('image/(jpeg|png|webp)')]: the string is made a regular
    expression, which is searched for anywhere in the type. *)
Definition matchesImageType (type : string) : bool :=
  includes "image/jpeg" type || includes "image/png" type
  || includes "image/webp" type.

Definition filterValidFiles (files : list File.t) : list File.t :=
  List.filter
    (fun file =>
       if negb (matchesImageType (File.type file)) then false
       else if 20 * 1024 * 1024 <? File.size file then false
       else true)
    files.

(** The values of [item.status]. *)
Inductive ItemStatus :=
  | StatusPending
  | StatusProcessing
  | StatusCompleted
  | StatusError.

Global Instance ItemStatus_eq_dec : EqDecision ItemStatus.
Proof. solve_decision. Defined.

(** An item of the queue.  The blob is the canvas content that [toBlob]
    encodes; the two object URLs are browser handles to the file and to the
    blob and are left out. *)
Module Item.
Record t := mk {
  id : Z;
  file : File.t;
  name : string;
  status : ItemStatus;
  originalImg : option ImageData.t;
  processedBlob : option ImageData.t
}.
End Item.

(** The module-level variables [engine], [imageQueue], [processedCount]. *)
Record ProcessorState := {
  engine : option WatermarkEngine;
  imageQueue : list Item.t;
  processedCount : Z
}.

(** [createImageQueue]; [now i] is what [Date.now()] returns when the item
    of index [i] is built. *)
Definition createImageQueue (now : nat -> Z) (st : ProcessorState)
    (files : list File.t) : ProcessorState :=
  {| engine := engine st;
     imageQueue :=
       imap (fun index file =>
               Item.mk (now index + Z.of_nat index) file (File.name file)
                       StatusPending None None)
            files;
     processedCount := 0 |}.

(** [reset] *)
Definition reset (st : ProcessorState) : ProcessorState :=
  {| engine := engine st; imageQueue := []; processedCount := 0 |}.

(** The slices [imageQueue.slice(i, i + concurrency)] of the loop
    [for (i = 0; i < imageQueue.length; i += concurrency)]. *)
Fixpoint slicesFrom {A} (fuel i concurrency : nat) (queue : list A)
    : list (list A) :=
  match fuel with
  | O => []
  | S fuel' =>
      if (i <? length queue)%nat then
        take concurrency (drop i queue)
        :: slicesFrom fuel' (i + concurrency) concurrency queue
      else []
  end.

Definition slices {A} (concurrency : nat) (queue : list A) : list (list A) :=
  slicesFrom (length queue) 0 concurrency queue.

(** First part of [processQueue]: every item's file is loaded, and the
    image is stored in the item when the load succeeds. *)
Definition loadItem (loadImage : File.t -> option ImageData.t) (item : Item.t)
    : Item.t :=
  match loadImage (Item.file item) with
  | Some img =>
      Item.mk (Item.id item) (Item.file item) (Item.name item)
              (Item.status item) (Some img) (Item.processedBlob item)
  | None => item
  end.

Definition withStatus (item : Item.t) (s : ItemStatus) : Item.t :=
  Item.mk (Item.id item) (Item.file item) (Item.name item) s
          (Item.originalImg item) (Item.processedBlob item).

(** The callback of the second part of [processQueue] for one item, on the
    engine and the counter as they stand when its turn comes.  An item that
    is not pending is skipped; any exception of the removal (also the one
    raised when there is no engine or no image) marks the item failed.  The
    canvas is taken to deliver its blob, and the updates of the page, which
    test for the elements they touch, to go through. *)
Definition processItem (P : Platform) (acc : option WatermarkEngine * Z)
    (item : Item.t) : (option WatermarkEngine * Z) * Item.t :=
  if decide (Item.status item = StatusPending) then
    match acc.1, Item.originalImg item with
    | Some eng, Some img =>
        match removeWatermarkFromImage P eng img None with
        | Normal (eng', result) =>
            ((Some eng', acc.2 + 1),
             Item.mk (Item.id item) (Item.file item) (Item.name item)
                     StatusCompleted (Item.originalImg item) (Some result))
        | Throw _ => (acc, withStatus item StatusError)
        end
    | _, _ => (acc, withStatus item StatusError)
    end
  else (acc, item).

(** A left-to-right pass that threads an accumulator. *)
Fixpoint passWith {S A B} (f : S -> A -> S * B) (acc : S) (l : list A)
    : S * list B :=
  match l with
  | [] => (acc, [])
  | a :: rest =>
      let '(acc1, b) := f acc a in
      let '(acc2, bs) := passWith f acc1 rest in
      (acc2, b :: bs)
  end.

(** The batches one after the other; the engine is entered in the order of
    the items, each call reaching [getAlphaMap] before the next begins. *)
Fixpoint processBatches (P : Platform) (acc : option WatermarkEngine * Z)
    (batches : list (list Item.t)) : (option WatermarkEngine * Z) * list Item.t :=
  match batches with
  | [] => (acc, [])
  | batch :: rest =>
      let '(acc1, done1) := passWith (processItem P) acc batch in
      let '(acc2, done2) := processBatches P acc1 rest in
      (acc2, done1 ++ done2)
  end.

(** How [await processQueue()] ends: normally, or with the rejection of a
    load, in which case no item has been processed. *)
Inductive QueueOutcome :=
  | QueueDone (st : ProcessorState)
  | LoadRejected (st : ProcessorState).

Definition processQueue (P : Platform) (loadImage : File.t -> option ImageData.t)
    (st : ProcessorState) : QueueOutcome :=
  let loaded := map (loadItem loadImage) (imageQueue st) in
  if forallb (fun item => bool_decide (is_Some (loadImage (Item.file item))))
             (imageQueue st)
  then
    let '((eng, count), items) :=
      processBatches P (engine st, processedCount st) (slices 3 loaded) in
    QueueDone {| engine := eng; imageQueue := items; processedCount := count |}
  else
    LoadRejected {| engine := engine st; imageQueue := loaded;
                    processedCount := processedCount st |}.

(** How one item leaves [processItem]. *)
Definition itemStep (item item' : Item.t) : Prop :=
  Item.id item' = Item.id item
  /\ Item.file item' = Item.file item
  /\ Item.name item' = Item.name item
  /\ Item.originalImg item' = Item.originalImg item
  /\ if decide (Item.status item = StatusPending)
     then (Item.status item' = StatusCompleted
           /\ is_Some (Item.processedBlob item'))
          \/ (Item.status item' = StatusError
              /\ Item.processedBlob item' = Item.processedBlob item)
     else item' = item.

(** An item that was pending ends as the removal on image [img] alone, on
    the engine [eng], would have it. *)
Definition endsAsAlone (P : Platform) (eng : WatermarkEngine)
    (img : ImageData.t) (item item' : Item.t) : Prop :=
  match pixelsOf (removeWatermarkFromImage P eng img None) with
  | Normal out =>
      Item.status item' = StatusCompleted /\ Item.processedBlob item' = Some out
  | Throw _ =>
      Item.status item' = StatusError
      /\ Item.processedBlob item' = Item.processedBlob item
  end.

(** ** Download names ([download.js]) *)

Definition isDot (c : ascii) : bool := Ascii.eqb c ".".

Fixpoint hasDot (s : string) : bool :=
  match s with
  | EmptyString => false
  | String c rest => isDot c || hasDot rest
  end.

(** [\.[^.]+$] matches at the head of [s]: a dot, then one character or
    more, none of them a dot, up to the end. *)
Definition extensionAtHead (s : string) : bool :=
  match s with
  | String c (String d rest) => isDot c && negb (hasDot (String d rest))
  | _ => false
  end.

(** [name.replace(/\.[^.]+$/, '')]: the first position at which the
    expression matches is searched from the left, and the match, which runs
    to the end, is removed. *)
Fixpoint stripExtension (s : string) : string :=
  if extensionAtHead s then EmptyString
  else match s with
       | EmptyString => EmptyString
       | String c rest => String c (stripExtension rest)
       end.

(** [`unwatermarked_${item.name.replace(/\.[^.]+$/, '')}.png`] *)
Definition downloadName (name : string) : string :=
  "unwatermarked_" +:+ stripExtension name +:+ ".png".

(** The calls [zip.file(filename, item.processedBlob)] of [downloadAll], in
    order; none when no item is completed. *)
Definition zipFiles (queue : list Item.t) : list (string * option ImageData.t) :=
  map (fun item => (downloadName (Item.name item), Item.processedBlob item))
      (List.filter (fun item => bool_decide (Item.status item = StatusCompleted))
                   queue).

(** The archive [downloadAll] builds with these calls: [zip.file] puts the
    blob under the name, in the place of the entry of that name when the
    archive has one already. *)
Definition zipArchive (queue : list Item.t) : gmap string (option ImageData.t) :=
  foldl (fun archive entry => <[entry.1 := entry.2]> archive) ∅ (zipFiles queue).

(** ** Provenance check ([utils.js]) and translations ([i18n.js]) *)

(** [i18n.t]: [translations[key] || key]. *)
Module I18n.
Definition t (translations : gmap string string) (key : string) : string :=
  match translations !! key with
  | Some text => if String.eqb text EmptyString then key else text
  | None => key
  end.
End I18n.

(** The metadata fields the check reads. *)
Record ExifData := {
  Credit : option string;
  ImageWidth : option Z;
  ImageHeight : option Z
}.

(** What [exifr.parse] does: it throws, or it returns the metadata or
    [undefined]. *)
Inductive ExifParse :=
  | ParseThrows
  | Parsed (exifData : option ExifData).

(** A number that is present and not zero. *)
Definition truthy (v : option Z) : bool :=
  match v with Some n => negb (n =? 0) | None => false end.

Record OriginalCheck := {
  is_valid_source : bool;
  is_original : bool;
  watermarkType : string
}.

Definition checkOriginal (parse : ExifParse) (watermarkType : string)
    : OriginalCheck :=
  match parse with
  | Parsed exifData =>
      let is_valid_source :=
        if String.eqb watermarkType WATERMARK_TYPE.GEMINI then
          match exifData with
          | Some e =>
              match Credit e with
              | Some credit => String.eqb credit "Made with Google AI"
              | None => false
              end
          | None => false
          end
        else if String.eqb watermarkType WATERMARK_TYPE.DOUBAO then true
        else false in
      {| is_valid_source := is_valid_source;
         is_original :=
           match exifData with
           | Some e => truthy (ImageWidth e) && truthy (ImageHeight e)
           | None => false
           end;
         watermarkType := watermarkType |}
  | ParseThrows =>
      {| is_valid_source := String.eqb watermarkType WATERMARK_TYPE.DOUBAO;
         is_original := false;
         watermarkType := watermarkType |}
  end.

Definition getOriginalStatus (translations : gmap string string)
    (check : OriginalCheck) : string :=
  if negb (is_valid_source check) then
    let msgKey := "original.not_" +:+ watermarkType check in
    let msg := I18n.t translations msgKey in
    if String.eqb msg msgKey then I18n.t translations "original.not_valid_source"
    else msg
  else if negb (is_original check) then
    I18n.t translations "original.not_original"
  else EmptyString.

(** ** A queue to evaluate calls on *)

(** A decoder that fails on an empty file, decodes a file of one byte to an
    image without pixels and any other file to a grey image of 33 by 33. *)
Definition exampleLoad (file : File.t) : option ImageData.t :=
  if File.size file =? 0 then None
  else if File.size file =? 1 then Some (ImageData.mk 0 0 [])
  else Some (greyImage 33 33).

Definition exampleQueue (files : list File.t) : ProcessorState :=
  createImageQueue (fun _ => 1700000000000)
    {| engine := Some exampleEngine; imageQueue := []; processedCount := 0 |}
    files.

(** * Properties *)

(** ** Rounding and comparison *)

Lemma ltb_spec (a b : Q) : Js.ltb a b = true <-> (a < b)%Q.
Proof.
  unfold Js.ltb. rewrite negb_true_iff, <- not_true_iff_false, Qle_bool_iff.
  split; [apply Qnot_le_lt | apply Qlt_not_le].
Qed.

Lemma ltb_false (a b : Q) : Js.ltb a b = false <-> (b <= a)%Q.
Proof.
  unfold Js.ltb. rewrite negb_false_iff. apply Qle_bool_iff.
Qed.

Lemma Math_round_mono (a b : Q) :
  (a <= b)%Q -> Js.Math_round a <= Js.Math_round b.
Proof.
  intros Hab. unfold Js.Math_round. apply Qfloor_resp_le. lra.
Qed.

Lemma Math_round_nearest (q : Q) : nearestInteger q (Js.Math_round q).
Proof.
  unfold nearestInteger, Js.Math_round.
  pose proof (Qfloor_le (q + (1 # 2))) as Hlo.
  pose proof (Qlt_floor (q + (1 # 2))) as Hhi.
  rewrite inject_Z_plus in Hhi. change (inject_Z 1) with 1%Q in Hhi.
  split; lra.
Qed.

Lemma nearestInteger_unique (q : Q) (n m : Z) :
  nearestInteger q n -> nearestInteger q m -> n = m.
Proof.
  intros [Hn1 Hn2] [Hm1 Hm2].
  assert (inject_Z n < inject_Z m + 1)%Q as H1 by lra.
  assert (inject_Z m < inject_Z n + 1)%Q as H2 by lra.
  change 1%Q with (inject_Z 1) in H1, H2.
  rewrite <- inject_Z_plus, <- Zlt_Qlt in H1, H2. lia.
Qed.

Lemma Math_round_inject (n : Z) : Js.Math_round (inject_Z n) = n.
Proof.
  apply (nearestInteger_unique (inject_Z n)); [apply Math_round_nearest|].
  split; lra.
Qed.

Lemma Math_round_nonneg (q : Q) : (0 <= q)%Q -> 0 <= Js.Math_round q.
Proof.
  intros Hq. change 0 with (Js.Math_round 0). by apply Math_round_mono.
Qed.

(** ** The Gemini buckets and the interpolation *)

Lemma geminiSizeLine_mono (e1 e2 : Z) :
  e1 <= e2 -> (geminiSizeLine e1 <= geminiSizeLine e2)%Q.
Proof.
  intros He. rewrite Zle_Qle in He. unfold geminiSizeLine,
    GEMINI_SCALING.sizeSlope, GEMINI_SCALING.sizeIntercept. lra.
Qed.

Lemma geminiMarginLine_mono (e1 e2 : Z) :
  e1 <= e2 -> (geminiMarginLine e1 <= geminiMarginLine e2)%Q.
Proof.
  intros He. rewrite Zle_Qle in He. unfold geminiMarginLine,
    GEMINI_SCALING.marginSlope, GEMINI_SCALING.marginIntercept. lra.
Qed.

Lemma calculateGeminiConfig_large (w h : Z) :
  2048 < Z.min w h ->
  calculateGeminiConfig w h =
    let logoSize := Js.Math_round (geminiSizeLine (Z.min w h)) in
    let margin := Js.Math_round (geminiMarginLine (Z.min w h)) in
    {| type := WATERMARK_TYPE.GEMINI; aspectCategory := None;
       sizeCategory := Some large; width := logoSize; height := logoSize;
       logoSize := Some logoSize; marginRight := margin; marginBottom := margin;
       sourceTemplate := Some T96; refConfig := None |}.
Proof.
  intros He. unfold calculateGeminiConfig, GEMINI_SCALING.smallMaxEdge.
  destruct (Z.leb_spec (Z.min w h) 1024); [lia|].
  destruct (Z.leb_spec (Z.min w h) 2048); [lia|]. reflexivity.
Qed.

(** C2.  The Gemini rule meets both calibration points: an image whose
    shorter edge is exactly 2048 resolves to size 96 and margin 64, an image
    whose shorter edge is exactly 3058 resolves to size 173 and margin 104,
    and these are the rounded values of the interpolation lines
    [sizeSlope * edge + sizeIntercept] and
    [marginSlope * edge + marginIntercept] at the two edges. *)
Theorem gemini_calibration_points (w1 h1 w2 h2 : Z) :
  Z.min w1 h1 = 2048 ->
  Z.min w2 h2 = 3058 ->
  let c1 := detectWatermarkConfig w1 h1 WATERMARK_TYPE.GEMINI in
  let c2 := detectWatermarkConfig w2 h2 WATERMARK_TYPE.GEMINI in
  (width c1 = 96 /\ height c1 = 96 /\ marginRight c1 = 64 /\ marginBottom c1 = 64)
  /\ (width c2 = 173 /\ height c2 = 173
      /\ marginRight c2 = 104 /\ marginBottom c2 = 104)
  /\ Js.Math_round (geminiSizeLine 2048) = 96
  /\ Js.Math_round (geminiMarginLine 2048) = 64
  /\ Js.Math_round (geminiSizeLine 3058) = 173
  /\ Js.Math_round (geminiMarginLine 3058) = 104.
Proof.
  intros H1 H2. cbn zeta.
  change (detectWatermarkConfig w1 h1 WATERMARK_TYPE.GEMINI)
    with (calculateGeminiConfig w1 h1).
  change (detectWatermarkConfig w2 h2 WATERMARK_TYPE.GEMINI)
    with (calculateGeminiConfig w2 h2).
  rewrite (calculateGeminiConfig_large w2 h2) by lia.
  unfold calculateGeminiConfig at 1 2 3 4. rewrite H1, H2.
  repeat split; vm_compute; reflexivity.
Qed.

Lemma gemini_calibration_points_witness :
  let c1 := detectWatermarkConfig 2048 4096 WATERMARK_TYPE.GEMINI in
  let c2 := detectWatermarkConfig 4096 3058 WATERMARK_TYPE.GEMINI in
  (width c1 = 96 /\ height c1 = 96 /\ marginRight c1 = 64 /\ marginBottom c1 = 64)
  /\ (width c2 = 173 /\ height c2 = 173
      /\ marginRight c2 = 104 /\ marginBottom c2 = 104)
  /\ Js.Math_round (geminiSizeLine 2048) = 96
  /\ Js.Math_round (geminiMarginLine 2048) = 64
  /\ Js.Math_round (geminiSizeLine 3058) = 173
  /\ Js.Math_round (geminiMarginLine 3058) = 104.
Proof.
  apply (gemini_calibration_points 2048 4096 4096 3058); reflexivity.
Defined.

(** C8.  Beyond the largest bucket the Gemini size and margin do not
    decrease when the shorter edge grows. *)
Theorem gemini_large_monotone (w1 h1 w2 h2 : Z) :
  2048 < Z.min w1 h1 ->
  Z.min w1 h1 <= Z.min w2 h2 ->
  let c1 := detectWatermarkConfig w1 h1 WATERMARK_TYPE.GEMINI in
  let c2 := detectWatermarkConfig w2 h2 WATERMARK_TYPE.GEMINI in
  width c1 <= width c2 /\ height c1 <= height c2
  /\ marginRight c1 <= marginRight c2 /\ marginBottom c1 <= marginBottom c2.
Proof.
  intros H1 H12. cbn zeta.
  change (detectWatermarkConfig w1 h1 WATERMARK_TYPE.GEMINI)
    with (calculateGeminiConfig w1 h1).
  change (detectWatermarkConfig w2 h2 WATERMARK_TYPE.GEMINI)
    with (calculateGeminiConfig w2 h2).
  rewrite !calculateGeminiConfig_large by lia. cbn.
  pose proof (Math_round_mono _ _ (geminiSizeLine_mono _ _ H12)).
  pose proof (Math_round_mono _ _ (geminiMarginLine_mono _ _ H12)).
  auto.
Qed.

Lemma gemini_large_monotone_witness :
  let c1 := detectWatermarkConfig 4096 3058 WATERMARK_TYPE.GEMINI in
  let c2 := detectWatermarkConfig 8000 6000 WATERMARK_TYPE.GEMINI in
  width c1 <= width c2 /\ height c1 <= height c2
  /\ marginRight c1 <= marginRight c2 /\ marginBottom c1 <= marginBottom c2.
Proof.
  apply (gemini_large_monotone 4096 3058 8000 6000); vm_compute; congruence.
Defined.

(** ** The Doubao aspect buckets and scaling *)

(** C3.  The Doubao aspect bucket depends on the ratio
    [imageWidth / imageHeight] alone: below 0.8 it is '2x3' (tall), above 1.2
    it is '3x2' (wide), and from 0.8 to 1.2, both ends included, it is '1x1'
    (square).  The dimensions are positive, as those of an image are; the
    ratio of the model is then the ratio the source computes. *)
Theorem aspect_classification (w h w' h' : Z) :
  0 < w -> 0 < h -> 0 < w' -> 0 < h' ->
  let ratio := Js.div w h in
  ((ratio < 8 # 10)%Q -> getDoubaoAspectCategory w h = Cat2x3)
  /\ ((12 # 10 < ratio)%Q -> getDoubaoAspectCategory w h = Cat3x2)
  /\ ((8 # 10 <= ratio)%Q /\ (ratio <= 12 # 10)%Q ->
      getDoubaoAspectCategory w h = Cat1x1)
  /\ ((ratio == Js.div w' h')%Q ->
      getDoubaoAspectCategory w h = getDoubaoAspectCategory w' h')
  /\ aspectName Cat2x3 = "2x3" /\ aspectName Cat3x2 = "3x2"
  /\ aspectName Cat1x1 = "1x1".
Proof.
  intros _ _ _ _ ratio. unfold getDoubaoAspectCategory, Js.gtb.
  fold ratio. repeat split.
  - intros Hlt. apply ltb_spec in Hlt. by rewrite Hlt.
  - intros Hgt. destruct (Js.ltb ratio (8 # 10)) eqn:E.
    + apply ltb_spec in E. lra.
    + apply ltb_spec in Hgt. by rewrite Hgt.
  - intros [Hlo Hhi]. apply ltb_false in Hlo, Hhi. by rewrite Hlo, Hhi.
  - intros Heq. set (ratio' := Js.div w' h').
    assert (forall b, Js.ltb ratio b = Js.ltb ratio' b) as E1.
    { intros b. unfold Js.ltb. f_equal.
      apply eq_true_iff_eq. rewrite !Qle_bool_iff. fold ratio' in Heq.
      by rewrite Heq. }
    assert (forall b, Js.ltb b ratio = Js.ltb b ratio') as E2.
    { intros b. unfold Js.ltb. f_equal.
      apply eq_true_iff_eq. rewrite !Qle_bool_iff. fold ratio' in Heq.
      by rewrite Heq. }
    by rewrite E1, E2.
Qed.

Lemma aspect_classification_witness :
  let ratio := Js.div 4 5 in
  ((ratio < 8 # 10)%Q -> getDoubaoAspectCategory 4 5 = Cat2x3)
  /\ ((12 # 10 < ratio)%Q -> getDoubaoAspectCategory 4 5 = Cat3x2)
  /\ ((8 # 10 <= ratio)%Q /\ (ratio <= 12 # 10)%Q ->
      getDoubaoAspectCategory 4 5 = Cat1x1)
  /\ ((ratio == Js.div 2048 2560)%Q ->
      getDoubaoAspectCategory 4 5 = getDoubaoAspectCategory 2048 2560)
  /\ aspectName Cat2x3 = "2x3" /\ aspectName Cat3x2 = "3x2"
  /\ aspectName Cat1x1 = "1x1".
Proof.
  apply (aspect_classification 4 5 2048 2560); lia.
Defined.

(** C4.  For Doubao the four measured quantities of the selected bucket's
    reference configuration are each multiplied by the one factor
    [min(imageWidth, imageHeight) / min(refWidth, refHeight)] and rounded to
    the nearest integer. *)
Theorem doubao_short_edge_scaling (w h : Z) :
  0 < w -> 0 < h ->
  let c := detectWatermarkConfig w h WATERMARK_TYPE.DOUBAO in
  let ref := DOUBAO_CONFIGS (getDoubaoAspectCategory w h) in
  let k := shortEdgeFactor w h ref in
  type c = WATERMARK_TYPE.DOUBAO
  /\ aspectCategory c = Some (getDoubaoAspectCategory w h)
  /\ refConfig c = Some ref
  /\ nearestInteger (inject_Z (wmWidth ref) * k) (width c)
  /\ nearestInteger (inject_Z (wmHeight ref) * k) (height c)
  /\ nearestInteger (inject_Z (refMarginRight ref) * k) (marginRight c)
  /\ nearestInteger (inject_Z (refMarginBottom ref) * k) (marginBottom c).
Proof.
  intros _ _. cbn zeta.
  change (detectWatermarkConfig w h WATERMARK_TYPE.DOUBAO) with
    (let aspectCategory := getDoubaoAspectCategory w h in
     let config := DOUBAO_CONFIGS aspectCategory in
     let scale := Js.div (Z.min w h) (Z.min (refWidth config) (refHeight config)) in
     {| type := WATERMARK_TYPE.DOUBAO; aspectCategory := Some aspectCategory;
        sizeCategory := None;
        width := Js.Math_round (inject_Z (wmWidth config) * scale);
        height := Js.Math_round (inject_Z (wmHeight config) * scale);
        logoSize := None;
        marginRight := Js.Math_round (inject_Z (refMarginRight config) * scale);
        marginBottom := Js.Math_round (inject_Z (refMarginBottom config) * scale);
        sourceTemplate := None; refConfig := Some config |}).
  cbn zeta. cbn [type aspectCategory refConfig width height marginRight marginBottom].
  repeat split; try apply Math_round_nearest.
Qed.

Lemma doubao_short_edge_scaling_witness :
  let c := detectWatermarkConfig 4000 2000 WATERMARK_TYPE.DOUBAO in
  let ref := DOUBAO_CONFIGS (getDoubaoAspectCategory 4000 2000) in
  let k := shortEdgeFactor 4000 2000 ref in
  type c = WATERMARK_TYPE.DOUBAO
  /\ aspectCategory c = Some (getDoubaoAspectCategory 4000 2000)
  /\ refConfig c = Some ref
  /\ nearestInteger (inject_Z (wmWidth ref) * k) (width c)
  /\ nearestInteger (inject_Z (wmHeight ref) * k) (height c)
  /\ nearestInteger (inject_Z (refMarginRight ref) * k) (marginRight c)
  /\ nearestInteger (inject_Z (refMarginBottom ref) * k) (marginBottom c).
Proof.
  apply (doubao_short_edge_scaling 4000 2000); lia.
Defined.

(** The boundary ratios and the ratios of the specification's examples. *)
Example aspect_boundaries :
  getDoubaoAspectCategory 4 5 = Cat1x1
  /\ getDoubaoAspectCategory 6 5 = Cat1x1
  /\ getDoubaoAspectCategory 79 100 = Cat2x3
  /\ getDoubaoAspectCategory 121 100 = Cat3x2
  /\ getDoubaoAspectCategory 2048 2048 = Cat1x1.
Proof. by vm_compute. Qed.

(** A wide image is scaled by its height, the shorter edge: the width of
    the watermark follows 2000 / 1672, not 4000 / 2508. *)
Example doubao_scaling_4000x2000 :
  let c := detectWatermarkConfig 4000 2000 WATERMARK_TYPE.DOUBAO in
  width c = 354 /\ height c = 85 /\ marginRight c = 63 /\ marginBottom c = 63
  /\ Js.Math_round (296 * (4000 # 2508)) = 472.
Proof. by vm_compute. Qed.

(** ** The reverse blend on one channel *)

Import ReverseBlend.


Lemma Math_round_Qeq (p q : Q) : (p == q)%Q -> Js.Math_round p = Js.Math_round q.
Proof. intros E. unfold Js.Math_round. by rewrite E. Qed.

Lemma inject_Z_sub (n m : Z) : (inject_Z (n - m) == inject_Z n - inject_Z m)%Q.
Proof.
  rewrite <- Z.add_opp_r, inject_Z_plus, inject_Z_opp. reflexivity.
Qed.

Lemma capAlpha_le (a : Q) : (capAlpha a <= ALPHA_CEILING)%Q.
Proof.
  unfold capAlpha. destruct (Qle_bool a ALPHA_CEILING) eqn:E.
  - by apply Qle_bool_iff.
  - apply Qle_refl.
Qed.

Lemma capAlpha_id (a : Q) : (a <= ALPHA_CEILING)%Q -> capAlpha a = a.
Proof.
  intros Ha. unfold capAlpha. apply Qle_bool_iff in Ha. by rewrite Ha.
Qed.

Lemma clampByte_range (v : Z) : 0 <= clampByte v <= 255.
Proof. unfold clampByte. lia. Qed.

Lemma clampByte_withinOne (v c : Z) :
  0 <= c <= 255 -> withinOne v c -> withinOne (clampByte v) c.
Proof. unfold clampByte, withinOne. lia. Qed.

(** Without storing the composed value in a byte the inversion is exact. *)
Lemma invert_forward (F : Q) (c_true : Z) (a : Q) :
  0 <= c_true <= 255 -> (a <= ALPHA_CEILING)%Q ->
  invert F (forward F c_true a) a = c_true.
Proof.
  intros Hc Ha. unfold invert, forward. rewrite (capAlpha_id a Ha).
  unfold ALPHA_CEILING in Ha.
  rewrite (Math_round_Qeq _ (inject_Z c_true)).
  - rewrite Math_round_inject. unfold clampByte. lia.
  - field. lra.
Qed.

(** The value the inversion rounds, for an opacity below the ceiling. *)
Lemma restore_value_bounds (F : Q) (c_true : Z) (a : Q) (b : Z) :
  (0 <= a)%Q -> (a < 2 # 3)%Q -> storedAs (forward F c_true a) b ->
  let v := ((inject_Z b - a * F) / (1 - a))%Q in
  (inject_Z c_true - (3 # 2) < v /\ v < inject_Z c_true + (3 # 2))%Q.
Proof.
  intros Ha0 Ha [Hlo Hhi] v. unfold forward in Hlo, Hhi.
  set (d := (1 - a)%Q). assert (1 # 3 < d)%Q as Hd by (unfold d; lra).
  assert (v == inject_Z c_true
               + (inject_Z b - (a * F + d * inject_Z c_true)) / d)%Q as ->.
  { unfold v, d. field. lra. }
  set (e := (inject_Z b - (a * F + d * inject_Z c_true))%Q).
  assert (- (1 # 2) <= e /\ e <= 1 # 2)%Q as [He1 He2].
  { unfold e, d. split; lra. }
  assert (- (3 # 2) < e / d /\ e / d < 3 # 2)%Q as [Hq1 Hq2].
  { split.
    - apply Qlt_shift_div_l; [lra|]. lra.
    - apply Qlt_shift_div_r; [lra|]. lra. }
  split; lra.
Qed.

(** C7.  Whatever the opacity, the divisor of the inversion is at least
    0.001 and the restored channel is a byte; at opacity exactly 1 the
    opacity used is the ceiling 0.999 and the divisor is 0.001. *)
Theorem reverse_blend_opaque_safe (F : Q) (c_obs : Z) (a : Q) :
  (capAlpha a <= 999 # 1000)%Q
  /\ (1 # 1000 <= 1 - capAlpha a)%Q
  /\ ~ (1 - capAlpha a == 0)%Q
  /\ 0 <= restoreChannel F c_obs a <= 255
  /\ (capAlpha 1 == 999 # 1000)%Q
  /\ (1 - capAlpha 1 == 1 # 1000)%Q
  /\ 0 <= restoreChannel F c_obs 1 <= 255
  /\ restoreChannel F c_obs 1 =
       clampByte (Js.Math_round (1000 * inject_Z c_obs - 999 * F)).
Proof.
  pose proof (capAlpha_le a) as Hcap. unfold ALPHA_CEILING in Hcap.
  repeat split; try lra; try apply clampByte_range; try reflexivity.
  unfold restoreChannel, invert. f_equal. apply Math_round_Qeq.
  change (capAlpha 1) with (999 # 1000)%Q. field.
Qed.

(** At the ceiling a byte of the buffer restores to 0 or to 255 and to
    nothing in between (white tint). *)
Lemma restore_at_ceiling (b : Z) :
  restoreChannel 255 b (999 # 1000) = 0 \/ restoreChannel 255 b (999 # 1000) = 255.
Proof.
  unfold restoreChannel, invert. change (capAlpha (999 # 1000)) with (999 # 1000)%Q.
  rewrite (Math_round_Qeq _ (inject_Z (1000 * b - 254745))).
  - rewrite Math_round_inject. unfold clampByte. lia.
  - rewrite inject_Z_sub, inject_Z_mult.
    change (inject_Z 1000) with (1000 # 1)%Q.
    change (inject_Z 254745) with (254745 # 1)%Q. field.
Qed.

(** Adding an integer commutes with [Math.round]. *)
Lemma Math_round_shift (q : Q) (n : Z) :
  Js.Math_round (q + inject_Z n) = Js.Math_round q + n.
Proof.
  apply (nearestInteger_unique (q + inject_Z n)); [apply Math_round_nearest|].
  destruct (Math_round_nearest q) as [Hlo Hhi]. unfold nearestInteger.
  rewrite inject_Z_plus. split; lra.
Qed.

(** At the ceiling one step of the observed byte moves the restored value
    by 1000, so whatever the tint, no two bytes of the buffer restore to
    within 1 of 100 and of 150: one of the two true values is lost however
    the composed value is stored. *)
Lemma ceiling_loses_a_value (F : Q) (b1 b2 : Z) :
  ~ (withinOne (restoreChannel F b1 (999 # 1000)) 100
     /\ withinOne (restoreChannel F b2 (999 # 1000)) 150).
Proof.
  unfold restoreChannel, invert. change (capAlpha (999 # 1000)) with (999 # 1000)%Q.
  set (r := Js.Math_round ((inject_Z b1 - (999 # 1000) * F) / (1 - (999 # 1000)))).
  assert (Js.Math_round ((inject_Z b2 - (999 # 1000) * F) / (1 - (999 # 1000)))
          = r + 1000 * (b2 - b1)) as ->.
  { unfold r. rewrite <- Math_round_shift. apply Math_round_Qeq.
    rewrite inject_Z_mult, inject_Z_sub. change (inject_Z 1000) with (1000 # 1)%Q.
    field. }
  unfold withinOne, clampByte. lia.
Qed.

(** C6, as stated, fails once the composed value is held in the buffer the
    compositor reads, which is a buffer of bytes.  With white tint, true
    value 1 and opacity 0.9 the composed value is 229.6; the one nearest byte
    is 230, which restores to 5.  At opacity 0.999 and true value 100 no byte
    at all restores to within 1 of 100. *)
Lemma roundtrip_fails_at_high_opacity :
  (0 <= 9 # 10)%Q /\ (9 # 10 <= 999 # 1000)%Q
  /\ (forward 255 1 (9 # 10) == 2296 # 10)%Q
  /\ storedAs (forward 255 1 (9 # 10)) 230
  /\ (forall b, storedAs (forward 255 1 (9 # 10)) b -> b = 230)
  /\ restoreChannel 255 230 (9 # 10) = 5
  /\ ~ withinOne (restoreChannel 255 230 (9 # 10)) 1
  /\ (forall b, ~ withinOne (restoreChannel 255 b (999 # 1000)) 100).
Proof.
  assert (forward 255 1 (9 # 10) == 2296 # 10)%Q as E by (by vm_compute).
  split; [lra|]. split; [lra|]. split; [exact E|].
  split; [|split; [|split; [|split]]].
  - split; by vm_compute.
  - intros b [Hlo Hhi]. rewrite E in Hlo, Hhi.
    assert (inject_Z 229 < inject_Z b)%Q as H1 by (change (inject_Z 229) with 229%Q; lra).
    assert (inject_Z b < inject_Z 231)%Q as H2 by (change (inject_Z 231) with 231%Q; lra).
    rewrite <- Zlt_Qlt in H1, H2. lia.
  - by vm_compute.
  - by vm_compute.
  - intros b Hb. destruct (restore_at_ceiling b) as [E0 | E255];
      rewrite ?E0, ?E255 in Hb; unfold withinOne in Hb; lia.
Qed.

(** C6, amended.  Composing with the forward model and inverting recovers
    the true byte exactly when the composed value is passed on unrounded, for
    every opacity up to the ceiling 0.999; when the composed value is stored as
    a nearest integer, the true byte is recovered within 1 for every opacity
    below 2/3. *)
Theorem reverse_blend_roundtrip (F : Q) (c_true : Z) (a : Q) :
  0 <= c_true <= 255 -> (0 <= a)%Q -> (a <= 999 # 1000)%Q ->
  invert F (forward F c_true a) a = c_true
  /\ ((a < 2 # 3)%Q ->
      forall b, storedAs (forward F c_true a) b ->
                withinOne (restoreChannel F b a) c_true).
Proof.
  intros Hc Ha0 Ha. split; [by apply invert_forward|].
  intros Ha23 b Hb. unfold restoreChannel, invert.
  rewrite (capAlpha_id a Ha).
  apply clampByte_withinOne; [done|].
  destruct (restore_value_bounds F c_true a b Ha0 Ha23 Hb) as [Hv1 Hv2].
  destruct (Math_round_nearest ((inject_Z b - a * F) / (1 - a))) as [Hr1 Hr2].
  set (r := Js.Math_round ((inject_Z b - a * F) / (1 - a))) in *.
  assert (inject_Z r < inject_Z (c_true + 2))%Q as H1.
  { rewrite inject_Z_plus. change (inject_Z 2) with 2%Q. lra. }
  assert (inject_Z (c_true - 2) < inject_Z r)%Q as H2.
  { rewrite inject_Z_sub. change (inject_Z 2) with 2%Q. lra. }
  rewrite <- Zlt_Qlt in H1, H2. unfold withinOne. lia.
Qed.

Lemma reverse_blend_roundtrip_witness :
  invert 255 (forward 255 100 (1 # 2)) (1 # 2) = 100
  /\ withinOne (restoreChannel 255 178 (1 # 2)) 100.
Proof.
  assert (0 <= 100 <= 255) as Hc by lia.
  assert (0 <= 1 # 2)%Q as Ha0 by (by vm_compute).
  assert (1 # 2 <= 999 # 1000)%Q as Ha by (by vm_compute).
  destruct (reverse_blend_roundtrip 255 100 (1 # 2) Hc Ha0 Ha) as [Hexact Hstored].
  split; [exact Hexact|].
  apply Hstored; [reflexivity|]. split; by vm_compute.
Defined.

(** ** The compositor writes inside the rectangle only *)

Lemma foldl_preserves {A B} (Inv : A -> Prop) (f : A -> B -> A)
    (l : list B) (a : A) :
  (forall a' b, b ∈ l -> Inv a' -> Inv (f a' b)) -> Inv a -> Inv (foldl f a l).
Proof.
  revert a. induction l as [|b l IH]; intros a Hstep Ha; simpl; [done|].
  apply IH.
  - intros a' b' Hb'. apply Hstep. by apply list_elem_of_further.
  - apply Hstep; [apply list_elem_of_here | done].
Qed.


Section Frame.

Variables (F : Q) (img : ImageData.t) (alphaMap : AlphaMap)
          (rect : WatermarkRect).



(** From here on the columns of the rectangle are columns of the image. *)
Hypothesis Hleft : 0 <= x rect.
Hypothesis Hright : x rect + rectWidth rect <= ImageData.width img.



End Frame.

(** ** What the resolver returns *)

Lemma scaled_nonneg (q : Z) (m r : Z) :
  0 <= q -> 0 <= m -> 0 < r -> 0 <= Js.Math_round (inject_Z q * Js.div m r).
Proof.
  intros Hq Hm Hr. apply Math_round_nonneg. unfold Js.div.
  rewrite Zle_Qle in Hq, Hm. rewrite Zlt_Qlt in Hr.
  change (inject_Z 0) with 0%Q in *.
  apply Qmult_le_0_compat; [done|].
  apply Qle_shift_div_l; [done|]. lra.
Qed.

(** Section 4.1: width, height and margins are never negative. *)
Lemma detectWatermarkConfig_nonneg (w h : Z) (t : string) :
  0 < w -> 0 < h ->
  let c := detectWatermarkConfig w h t in
  0 <= width c /\ 0 <= height c /\ 0 <= marginRight c /\ 0 <= marginBottom c.
Proof.
  intros Hw Hh. cbn zeta. unfold detectWatermarkConfig.
  destruct (String.eqb t WATERMARK_TYPE.DOUBAO).
  - cbn [width height marginRight marginBottom].
    destruct (getDoubaoAspectCategory w h);
      repeat split; apply scaled_nonneg; cbn; lia.
  - destruct (Z.le_gt_cases (Z.min w h) 2048) as [Hle | Hgt].
    + unfold calculateGeminiConfig, GEMINI_SCALING.smallMaxEdge.
      destruct (Z.min w h <=? 1024); [cbn; lia|].
      apply Z.leb_le in Hle. rewrite Hle. cbn. lia.
    + rewrite calculateGeminiConfig_large by lia.
      cbn [width height marginRight marginBottom].
      apply Z.lt_gt, Z.gt_lt in Hgt. rewrite Zlt_Qlt in Hgt.
      change (inject_Z 2048) with 2048%Q in Hgt.
      repeat split; apply Math_round_nonneg;
        unfold geminiSizeLine, geminiMarginLine, GEMINI_SCALING.sizeSlope,
          GEMINI_SCALING.sizeIntercept, GEMINI_SCALING.marginSlope,
          GEMINI_SCALING.marginIntercept; lra.
Qed.

(** ** The orchestrator *)

Lemma getAlphaMap_normal (P : Platform) (eng : WatermarkEngine)
    (config : WatermarkConfig) :
  width config <> 0 -> height config <> 0 ->
  exists eng' alphaMap, getAlphaMap P eng config = Normal (eng', alphaMap).
Proof.
  intros Hw Hh. unfold getAlphaMap.
  destruct (alphaMaps eng !! cacheKey config) as [cached|]; [by eauto|].
  unfold deriveAlphaMap. destruct (sourceSize _ _) as [sw sh].
  apply Z.eqb_neq in Hw, Hh. rewrite Hw, Hh. cbn. by eauto.
Qed.

Lemma removeWatermarkFromImage_normal (P : Platform) (eng eng' : WatermarkEngine)
    (image out : ImageData.t) (watermarkType : option string) :
  removeWatermarkFromImage P eng image watermarkType = Normal (eng', out) ->
  let W := ImageData.width image in
  let H := ImageData.height image in
  let config := detectWatermarkConfig W H (effectiveType eng watermarkType) in
  exists alphaMap,
    getAlphaMap P eng config = Normal (eng', alphaMap)
    /\ out = ReverseBlend.removeWatermark (tint P) image alphaMap
               (calculateWatermarkPosition W H config).
Proof.
  unfold removeWatermarkFromImage. cbn zeta.
  destruct ((ImageData.width image =? 0) || (ImageData.height image =? 0));
    [done|].
  destruct (getAlphaMap P eng _) as [[eng1 alphaMap]|e]; [|done].
  intros [= <- <-]. by exists alphaMap.
Qed.





(** ** Initialisation *)

Lemma settle_promises (st : AllState) (ev : LoadEvent) (s : Slot) :
  promises (settle st ev) s =
    match promises st s with
    | Pending =>
        if decide (eventSlot ev = s) then outcomeOf (Some ev) else Pending
    | settled => settled
    end.
Proof.
  unfold settle. destruct (decide (eventSlot ev = s)) as [<- | Hne].
  - destruct (promises st (eventSlot ev)) eqn:E; rewrite ?E; try done.
    destruct ev as [s img | s]; cbn in *; by rewrite fn_lookup_insert.
  - destruct (promises st (eventSlot ev)) eqn:E; try by destruct (promises st s).
    destruct ev as [s' img | s']; cbn in *;
      rewrite fn_lookup_insert_ne by done; by destruct (promises st s).
Qed.

Lemma foldl_settle_promises (events : list LoadEvent) (st : AllState) (s : Slot) :
  promises (foldl settle st events) s =
    match promises st s with
    | Pending => outcomeOf (firstEvent s events)
    | settled => settled
    end.
Proof.
  revert st. induction events as [|ev events IH]; intros st; simpl.
  - by destruct (promises st s).
  - rewrite IH, settle_promises.
    destruct (promises st s); try done.
    by destruct (decide (eventSlot ev = s)); [destruct ev|].
Qed.

Lemma settle_consistent (st : AllState) (ev : LoadEvent) :
  rejectionConsistent st -> rejectionConsistent (settle st ev).
Proof.
  unfold rejectionConsistent. intros Hst.
  pose proof (settle_promises st ev) as Hp. unfold settle in *.
  destruct (promises st (eventSlot ev)) eqn:E; try done.
  destruct ev as [s img | s]; cbn in *.
  - destruct (rejectedBy st) as [r|].
    + rewrite Hp, Hst. done.
    + intros s'. rewrite Hp. specialize (Hst s').
      destruct (promises st s'); try done. by destruct (decide (s = s')).
  - destruct (rejectedBy st) as [r|].
    + rewrite Hp, Hst. done.
    + rewrite Hp, E. by destruct (decide (s = s)).
Qed.

Lemma foldl_settle_consistent (events : list LoadEvent) (st : AllState) :
  rejectionConsistent st -> rejectionConsistent (foldl settle st events).
Proof.
  revert st. induction events as [|ev events IH]; intros st Hst; simpl; [done|].
  by apply IH, settle_consistent.
Qed.

Lemma firstEvent_slot (s : Slot) (events : list LoadEvent) (ev : LoadEvent) :
  firstEvent s events = Some ev -> eventSlot ev = s.
Proof.
  induction events as [|ev' events IH]; simpl; [done|].
  destruct (decide (eventSlot ev' = s)); [by intros [= <-] | done].
Qed.

Lemma fulfilledImage_first (events : list LoadEvent) (s : Slot) (img : ImageData.t) :
  fulfilledImage (foldl settle initialState events) s = Some img <->
  firstEvent s events = Some (onload s img).
Proof.
  unfold fulfilledImage. rewrite foldl_settle_promises. cbn.
  destruct (firstEvent s events) as [ev|] eqn:E; cbn; [|done].
  apply firstEvent_slot in E. destruct ev as [s' img' | s']; cbn in *; subst.
  - split; by intros [= ->].
  - done.
Qed.

(** C9.  [create] yields an engine only when the first event of every one
    of the five images is [onload], and the engine then holds exactly those
    five images, an empty cache and the Gemini type; when the first event of
    any image is [onerror], [create] fails, on an image whose load failed, and
    yields no engine; when every image loads, it does yield the engine. *)
Theorem create_all_or_nothing (events : list LoadEvent) :
  (forall eng, create events = Ready eng ->
     (forall s, firstEvent s events = Some (onload s (slotCapture (bgCaptures eng) s)))
     /\ alphaMaps eng = ∅
     /\ currentWatermarkType eng = WATERMARK_TYPE.GEMINI)
  /\ ((exists s, firstEvent s events = Some (onerror s)) ->
      exists r, create events = InitializationFailed r
                /\ firstEvent r events = Some (onerror r))
  /\ ((forall s, exists img, firstEvent s events = Some (onload s img)) ->
      exists eng, create events = Ready eng)
  /\ (forall r, create events = InitializationFailed r ->
      firstEvent r events = Some (onerror r)).
Proof.
  pose proof (foldl_settle_consistent events initialState) as Hcons.
  unfold rejectionConsistent in Hcons at 2.
  assert (forall r, rejectedBy (foldl settle initialState events) = Some r ->
                    firstEvent r events = Some (onerror r)) as Hrej.
  { intros r Hr. rewrite Hr in Hcons.
    assert (rejectionConsistent initialState) as H0 by (by intros s).
    specialize (Hcons H0). rewrite foldl_settle_promises in Hcons. cbn in Hcons.
    destruct (firstEvent r events) as [ev|] eqn:E; [|done].
    apply firstEvent_slot in E. by destruct ev; cbn in *; subst. }
  assert ((exists s, firstEvent s events = Some (onerror s)) ->
          exists r, rejectedBy (foldl settle initialState events) = Some r) as Hfail.
  { intros [s Hs].
    destruct (rejectedBy (foldl settle initialState events)) as [r|]; [by eauto|].
    exfalso. apply (Hcons (fun s => ltac:(done)) s).
    rewrite foldl_settle_promises. cbn. by rewrite Hs. }
  split; [|split; [|split]].
  - intros eng. unfold create.
    destruct (rejectedBy _); [done|].
    destruct (fulfilledImage _ SlotBg48) as [i48|] eqn:E48; [|done].
    destruct (fulfilledImage _ SlotBg96) as [i96|] eqn:E96; [|done].
    destruct (fulfilledImage _ (SlotDoubao Cat1x1)) as [d11|] eqn:E11; [|done].
    destruct (fulfilledImage _ (SlotDoubao Cat2x3)) as [d23|] eqn:E23; [|done].
    destruct (fulfilledImage _ (SlotDoubao Cat3x2)) as [d32|] eqn:E32; [|done].
    intros [= <-]. split; [|done].
    intros [| |[]]; cbn; by apply fulfilledImage_first.
  - intros Herr. destruct (Hfail Herr) as [r Hr].
    exists r. split; [|by apply Hrej]. unfold create. by rewrite Hr.
  - intros Hall. unfold create.
    destruct (rejectedBy _) as [r|] eqn:Hr.
    { pose proof (Hrej r eq_refl) as Hr'. destruct (Hall r) as [img Himg].
      congruence. }
    destruct (Hall SlotBg48) as [i48 H48].
    destruct (Hall SlotBg96) as [i96 H96].
    destruct (Hall (SlotDoubao Cat1x1)) as [d11 H11].
    destruct (Hall (SlotDoubao Cat2x3)) as [d23 H23].
    destruct (Hall (SlotDoubao Cat3x2)) as [d32 H32].
    apply fulfilledImage_first in H48, H96, H11, H23, H32.
    rewrite H48, H96, H11, H23, H32. by eauto.
  - intros r. unfold create.
    destruct (rejectedBy _) as [r'|] eqn:Hr.
    + intros [= <-]. by apply Hrej.
    + by repeat case_match.
Qed.

(** Two runs of the loader: all five images load; the 96-pixel capture
    fails after two others have loaded. *)
Example create_examples :
  let img := ImageData.mk 1 1 [0; 0; 0; 255] in
  (exists eng,
     create [onload SlotBg96 img; onload (SlotDoubao Cat3x2) img;
             onload SlotBg48 img; onload (SlotDoubao Cat1x1) img;
             onload (SlotDoubao Cat2x3) img] = Ready eng)
  /\ create [onload SlotBg48 img; onload (SlotDoubao Cat1x1) img;
             onerror SlotBg96; onload (SlotDoubao Cat2x3) img;
             onload (SlotDoubao Cat3x2) img] = InitializationFailed SlotBg96
  /\ create [onload SlotBg48 img; onload SlotBg96 img] = Suspended.
Proof. cbn zeta. split; [eexists; reflexivity | split; reflexivity]. Qed.

(** ** The cache key *)

Lemma pretty_N_go_lacks_x (n : N) (s : string) :
  lacks "x" s -> lacks "x" (pretty_N_go n s).
Proof.
  revert s. induction (N.lt_wf_0 n) as [n _ IH]; intros s Hs.
  destruct (decide (n = 0%N)) as [-> | Hn].
  - by rewrite pretty_N_go_0.
  - rewrite pretty_N_go_step by lia. apply IH.
    + apply N.div_lt; lia.
    + split; [|done]. unfold pretty_N_char. by repeat case_match.
Qed.

Lemma toString_lacks_x (z : Z) : lacks "x" (Js.toString z).
Proof.
  unfold Js.toString, pretty, pretty_Z. destruct z as [|p|p].
  - by cbn.
  - unfold pretty, pretty_positive, pretty, pretty_N.
    case_decide; [done|]. by apply pretty_N_go_lacks_x.
  - split; [done|]. unfold pretty, pretty_positive, pretty, pretty_N.
    case_decide; [done|]. by apply pretty_N_go_lacks_x.
Qed.

Lemma append_x_split (s1 s2 t1 t2 : string) :
  lacks "x" s1 -> lacks "x" s2 ->
  s1 +:+ "x" +:+ t1 = s2 +:+ "x" +:+ t2 -> s1 = s2 /\ t1 = t2.
Proof.
  revert s2. induction s1 as [|a s1 IH]; intros [|b s2] H1 H2 Heq;
    cbn in H1, H2, Heq.
  - by simplify_eq.
  - simplify_eq. by destruct H2 as [Hb _].
  - simplify_eq. by destruct H1 as [Ha _].
  - destruct H1 as [_ H1], H2 as [_ H2]. injection Heq as -> Htail.
    by destruct (IH s2 H1 H2 Htail) as [-> ->].
Qed.

Lemma dimensions_of_key (w1 h1 w2 h2 : Z) :
  Js.toString w1 +:+ "x" +:+ Js.toString h1
  = Js.toString w2 +:+ "x" +:+ Js.toString h2 ->
  w1 = w2 /\ h1 = h2.
Proof.
  intros Heq.
  apply append_x_split in Heq as [Hw Hh]; try apply toString_lacks_x.
  unfold Js.toString in Hw, Hh. by apply (inj pretty) in Hw, Hh.
Qed.

Lemma keyOf_inj (k1 k2 : KeyPrefix) (w1 h1 w2 h2 : Z) :
  keyOf k1 w1 h1 = keyOf k2 w2 h2 -> k1 = k2 /\ w1 = w2 /\ h1 = h2.
Proof.
  unfold keyOf.
  destruct k1 as [[] | []], k2 as [[] | []]; cbn; intros Heq;
    try discriminate Heq;
    (split; [reflexivity|]); apply dimensions_of_key;
    by simplify_eq.
Qed.

(** The key and the capture of every resolved configuration. *)
Lemma detect_key_shape (w h : Z) (t : string) :
  let c := detectWatermarkConfig w h t in
  exists k, cacheKey c = keyOf k (width c) (height c)
            /\ selectCapture c = captureFor k (width c).
Proof.
  cbn zeta. unfold detectWatermarkConfig.
  destruct (String.eqb t WATERMARK_TYPE.DOUBAO).
  - by exists (KDoubao (getDoubaoAspectCategory w h)).
  - unfold calculateGeminiConfig.
    destruct (Z.min w h <=? GEMINI_SCALING.smallMaxEdge);
      [by exists (KGemini small)|].
    destruct (Z.min w h <=? 2048); [by exists (KGemini medium)|].
    by exists (KGemini large).
Qed.

Lemma deriveAlphaMap_determined (P : Platform) (captures : BgCaptures)
    (c1 c2 : WatermarkConfig) :
  selectCapture c1 = selectCapture c2 ->
  width c1 = width c2 -> height c1 = height c2 ->
  deriveAlphaMap P captures c1 = deriveAlphaMap P captures c2.
Proof.
  intros Hsel Hw Hh. unfold deriveAlphaMap. by rewrite Hsel, Hw, Hh.
Qed.

Lemma same_key_same_source (w1 h1 w2 h2 : Z) (t1 t2 : string) :
  let c1 := detectWatermarkConfig w1 h1 t1 in
  let c2 := detectWatermarkConfig w2 h2 t2 in
  cacheKey c1 = cacheKey c2 ->
  selectCapture c1 = selectCapture c2
  /\ width c1 = width c2 /\ height c1 = height c2.
Proof.
  cbn zeta. intros Hkey.
  destruct (detect_key_shape w1 h1 t1) as (k1 & Hk1 & Hs1).
  destruct (detect_key_shape w2 h2 t2) as (k2 & Hk2 & Hs2).
  rewrite Hk1, Hk2 in Hkey. apply keyOf_inj in Hkey as (-> & Hw & Hh).
  by rewrite Hs1, Hs2, Hw.
Qed.

(** C10.  Two resolved configurations with the same cache key make
    [getAlphaMap] pick the same reference capture with the same source
    rectangle, have the same target width and height, and so derive the same
    alpha map. *)
Theorem cache_key_sound (w1 h1 w2 h2 : Z) (t1 t2 : string) :
  let c1 := detectWatermarkConfig w1 h1 t1 in
  let c2 := detectWatermarkConfig w2 h2 t2 in
  cacheKey c1 = cacheKey c2 ->
  selectCapture c1 = selectCapture c2
  /\ (forall captures,
        lookupCapture captures (selectCapture c1)
        = lookupCapture captures (selectCapture c2)
        /\ sourceSize captures (selectCapture c1)
           = sourceSize captures (selectCapture c2))
  /\ width c1 = width c2 /\ height c1 = height c2
  /\ (forall P captures,
        deriveAlphaMap P captures c1 = deriveAlphaMap P captures c2).
Proof.
  cbn zeta. intros Hkey.
  destruct (same_key_same_source w1 h1 w2 h2 t1 t2 Hkey) as (Hsel & Hw & Hh).
  split; [done|]. split; [by rewrite Hsel|]. split; [done|]. split; [done|].
  intros P captures. by apply deriveAlphaMap_determined.
Qed.

Lemma cache_key_sound_witness :
  let c1 := detectWatermarkConfig 1000 800 WATERMARK_TYPE.GEMINI in
  let c2 := detectWatermarkConfig 500 640 WATERMARK_TYPE.UNKNOWN in
  cacheKey c1 = "gemini_small_48x48"
  /\ selectCapture c1 = selectCapture c2
  /\ (forall captures,
        lookupCapture captures (selectCapture c1)
        = lookupCapture captures (selectCapture c2)
        /\ sourceSize captures (selectCapture c1)
           = sourceSize captures (selectCapture c2))
  /\ width c1 = width c2 /\ height c1 = height c2
  /\ (forall P captures,
        deriveAlphaMap P captures c1 = deriveAlphaMap P captures c2).
Proof.
  split; [reflexivity|].
  apply (cache_key_sound 1000 800 500 640 WATERMARK_TYPE.GEMINI
           WATERMARK_TYPE.UNKNOWN).
  reflexivity.
Defined.

(** The engine starts with a sound cache, and [getAlphaMap] keeps it sound
    and returns, on a hit as on a miss, the alpha map derived for the
    configuration it was asked for. *)
Lemma newWatermarkEngine_cacheSound (P : Platform) (captures : BgCaptures) :
  cacheSound P (newWatermarkEngine captures).
Proof. intros w h t cached. cbn. by rewrite lookup_empty. Qed.

Lemma getAlphaMap_cacheSound (P : Platform) (eng eng' : WatermarkEngine)
    (w h : Z) (t : string) (alphaMap : AlphaMap) :
  cacheSound P eng ->
  getAlphaMap P eng (detectWatermarkConfig w h t) = Normal (eng', alphaMap) ->
  deriveAlphaMap P (bgCaptures eng) (detectWatermarkConfig w h t) = Normal alphaMap
  /\ bgCaptures eng' = bgCaptures eng
  /\ cacheSound P eng'.
Proof.
  intros Hsound. unfold getAlphaMap.
  destruct (alphaMaps eng !! cacheKey (detectWatermarkConfig w h t))
    as [cached|] eqn:Hhit.
  - intros [= <- <-]. split; [by apply Hsound|done].
  - destruct (deriveAlphaMap P (bgCaptures eng) (detectWatermarkConfig w h t))
      as [derived|e] eqn:Hderive; [|done].
    intros [= <- <-]. split; [done|]. split; [done|].
    intros w' h' t' cached. cbn.
    destruct (decide (cacheKey (detectWatermarkConfig w h t)
                      = cacheKey (detectWatermarkConfig w' h' t'))) as [Heq|Hne].
    + rewrite Heq, lookup_insert_eq. intros [= <-]. rewrite <- Hderive.
      symmetry in Heq.
      destruct (same_key_same_source _ _ _ _ _ _ Heq) as (Hsel & Hw & Hh).
      by apply deriveAlphaMap_determined.
    + rewrite lookup_insert_ne by done. apply Hsound.
Qed.

(** * Further properties *)

(** ** The engine across calls *)

Lemma setWatermarkType_fields (eng : WatermarkEngine) (t : string) :
  bgCaptures (setWatermarkType eng t) = bgCaptures eng
  /\ alphaMaps (setWatermarkType eng t) = alphaMaps eng
  /\ (currentWatermarkType eng ∈ WATERMARK_TYPE.values ->
      currentWatermarkType (setWatermarkType eng t) ∈ WATERMARK_TYPE.values).
Proof.
  unfold setWatermarkType. case_bool_decide; cbn; auto.
Qed.

Lemma getAlphaMap_fields (P : Platform) (eng eng' : WatermarkEngine)
    (config : WatermarkConfig) (alphaMap : AlphaMap) :
  getAlphaMap P eng config = Normal (eng', alphaMap) ->
  bgCaptures eng' = bgCaptures eng
  /\ currentWatermarkType eng' = currentWatermarkType eng
  /\ alphaMaps eng' !! cacheKey config = Some alphaMap
  /\ (forall k v, alphaMaps eng !! k = Some v -> alphaMaps eng' !! k = Some v).
Proof.
  unfold getAlphaMap.
  destruct (alphaMaps eng !! cacheKey config) as [cached|] eqn:Hhit.
  - by intros [= <- <-].
  - destruct (deriveAlphaMap P (bgCaptures eng) config) as [derived|e]; [|done].
    intros [= <- <-]. cbn. repeat split.
    + by rewrite lookup_insert_eq.
    + intros k v Hk. rewrite lookup_insert_ne; [done|]. congruence.
Qed.

Lemma getAlphaMap_again (P : Platform) (eng eng' : WatermarkEngine)
    (config : WatermarkConfig) (alphaMap : AlphaMap) :
  getAlphaMap P eng config = Normal (eng', alphaMap) ->
  getAlphaMap P eng' config = Normal (eng', alphaMap).
Proof.
  intros Hcall.
  destruct (getAlphaMap_fields _ _ _ _ _ Hcall) as (_ & _ & Hhit & _).
  unfold getAlphaMap. by rewrite Hhit.
Qed.

Lemma engineAfter_invariant (P : Platform) (captures : BgCaptures)
    (eng : WatermarkEngine) (call : EngineCall) :
  engineInvariant P captures eng -> engineInvariant P captures (engineAfter P eng call).
Proof.
  intros (Hsound & Hcap & Htype). destruct call as [t | w h t | image ty]; cbn.
  - destruct (setWatermarkType_fields eng t) as (Hc & Hm & Ht).
    split; [|split; [congruence | auto]].
    intros w h t' cached. rewrite Hm, Hc. apply Hsound.
  - destruct (getAlphaMap P eng (detectWatermarkConfig w h t))
      as [[eng' alphaMap]|e] eqn:Hcall; [|done].
    destruct (getAlphaMap_cacheSound _ _ _ _ _ _ _ Hsound Hcall) as (_ & Hc & Hs).
    destruct (getAlphaMap_fields _ _ _ _ _ Hcall) as (_ & Ht & _).
    split; [done|]. split; congruence.
  - destruct (removeWatermarkFromImage P eng image ty)
      as [[eng' out]|e] eqn:Hcall; [|done].
    destruct (removeWatermarkFromImage_normal _ _ _ _ _ _ Hcall)
      as (alphaMap & Hget & _).
    destruct (getAlphaMap_cacheSound _ _ _ _ _ _ _ Hsound Hget) as (_ & Hc & Hs).
    destruct (getAlphaMap_fields _ _ _ _ _ Hget) as (_ & Ht & _).
    split; [done|]. split; congruence.
Qed.

Lemma newWatermarkEngine_invariant (P : Platform) (captures : BgCaptures) :
  engineInvariant P captures (newWatermarkEngine captures).
Proof.
  split; [apply newWatermarkEngine_cacheSound|]. split; [done|].
  cbn. apply list_elem_of_here.
Qed.

(** The pixels of a removal are decided by the captures, the type and the
    image, for an engine whose cache is sound. *)
Lemma removal_ignores_cache (P : Platform) (eng : WatermarkEngine)
    (image : ImageData.t) (watermarkType : option string) :
  cacheSound P eng ->
  pixelsOf (removeWatermarkFromImage P eng image watermarkType)
  = pixelsOf (removeWatermarkFromImage P (withEmptyCache eng) image watermarkType).
Proof.
  intros Hsound. unfold removeWatermarkFromImage.
  change (effectiveType (withEmptyCache eng) watermarkType)
    with (effectiveType eng watermarkType).
  cbn zeta.
  destruct ((ImageData.width image =? 0) || (ImageData.height image =? 0));
    [done|].
  set (config := detectWatermarkConfig _ _ _).
  unfold getAlphaMap at 2. cbn [alphaMaps withEmptyCache bgCaptures].
  rewrite lookup_empty.
  destruct (getAlphaMap P eng config) as [[eng' alphaMap]|e] eqn:Hcall.
  - destruct (getAlphaMap_cacheSound _ _ _ _ _ _ _ Hsound Hcall) as (Hd & _).
    fold config in Hd. by rewrite Hd.
  - unfold getAlphaMap in Hcall.
    destruct (alphaMaps eng !! cacheKey config); [done|].
    destruct (deriveAlphaMap P (bgCaptures eng) config) as [derived|e0];
      [done|].
    by destruct e, e0.
Qed.

(** X1.  Every engine reached from a new one by calls of [setWatermarkType],
    [getAlphaMap] (on resolved configurations) and [removeWatermarkFromImage]
    still holds the captures it was created with, has a current type among
    the three of [WATERMARK_TYPE], and has in its cache, under the key of any
    resolved configuration, nothing but the alpha map derived for that
    configuration. *)
Theorem engine_invariants (P : Platform) (captures : BgCaptures)
    (calls : list EngineCall) :
  let eng := foldl (engineAfter P) (newWatermarkEngine captures) calls in
  bgCaptures eng = captures
  /\ getWatermarkType eng ∈ WATERMARK_TYPE.values
  /\ forall (w h : Z) (t : string) (cached : AlphaMap),
       alphaMaps eng !! cacheKey (detectWatermarkConfig w h t) = Some cached ->
       deriveAlphaMap P captures (detectWatermarkConfig w h t) = Normal cached.
Proof.
  cbn zeta.
  assert (engineInvariant P captures
            (foldl (engineAfter P) (newWatermarkEngine captures) calls))
    as (Hsound & Hcap & Htype).
  { apply foldl_preserves; [|apply newWatermarkEngine_invariant].
    intros eng call _. apply engineAfter_invariant. }
  split; [done|]. split; [done|].
  intros w h t cached Hhit. rewrite <- Hcap. by apply Hsound.
Qed.

(** X2.  What an engine has cached never shows in its output: on every
    engine reached from a new one by calls, [removeWatermarkFromImage]
    returns the pixels (or throws the exception) it would with the cache
    emptied. *)
Theorem removal_cache_transparent (P : Platform) (captures : BgCaptures)
    (calls : list EngineCall) (image : ImageData.t) (watermarkType : option string) :
  let eng := foldl (engineAfter P) (newWatermarkEngine captures) calls in
  pixelsOf (removeWatermarkFromImage P eng image watermarkType)
  = pixelsOf (removeWatermarkFromImage P (withEmptyCache eng) image watermarkType).
Proof.
  cbn zeta. apply removal_ignores_cache.
  assert (engineInvariant P captures
            (foldl (engineAfter P) (newWatermarkEngine captures) calls))
    as (Hsound & _).
  { apply foldl_preserves; [|apply newWatermarkEngine_invariant].
    intros eng call _. apply engineAfter_invariant. }
  exact Hsound.
Qed.

(** X3.  A successful [getAlphaMap] leaves the map it returned under the
    key of the configuration, so the same request is then a cache hit that
    returns the same map and changes nothing; entries already cached stay
    as they are, and so do the captures and the current type. *)
Theorem getAlphaMap_hit_after_call (P : Platform) (eng eng' : WatermarkEngine)
    (config : WatermarkConfig) (alphaMap : AlphaMap) :
  getAlphaMap P eng config = Normal (eng', alphaMap) ->
  getAlphaMap P eng' config = Normal (eng', alphaMap)
  /\ alphaMaps eng' !! cacheKey config = Some alphaMap
  /\ (forall k v, alphaMaps eng !! k = Some v -> alphaMaps eng' !! k = Some v)
  /\ bgCaptures eng' = bgCaptures eng
  /\ getWatermarkType eng' = getWatermarkType eng.
Proof.
  intros Hcall.
  destruct (getAlphaMap_fields _ _ _ _ _ Hcall) as (Hc & Ht & Hhit & Hmono).
  split; [exact (getAlphaMap_again _ _ _ _ _ Hcall)|]. by repeat split.
Qed.

Lemma getAlphaMap_hit_after_call_witness :
  exists eng' alphaMap,
    let config := detectWatermarkConfig 100 100 WATERMARK_TYPE.GEMINI in
    getAlphaMap examplePlatform exampleEngine config = Normal (eng', alphaMap)
    /\ length alphaMap = 2304%nat
    /\ getAlphaMap examplePlatform eng' config = Normal (eng', alphaMap)
    /\ alphaMaps eng' !! cacheKey config = Some alphaMap
    /\ (forall k v, alphaMaps exampleEngine !! k = Some v ->
                    alphaMaps eng' !! k = Some v)
    /\ bgCaptures eng' = bgCaptures exampleEngine
    /\ getWatermarkType eng' = getWatermarkType exampleEngine.
Proof.
  eexists _, _. cbn zeta. split; [vm_compute; reflexivity|].
  split; [reflexivity|].
  eapply (getAlphaMap_hit_after_call examplePlatform exampleEngine).
  vm_compute. reflexivity.
Defined.

(** X4.  A removal that succeeded can be repeated: on the engine it left,
    the same call returns the same pixels and leaves the engine as it is, and
    any image of the same size is processed without the cache changing. *)
Theorem removal_repeatable (P : Platform) (eng eng1 : WatermarkEngine)
    (image out : ImageData.t) (watermarkType : option string) :
  removeWatermarkFromImage P eng image watermarkType = Normal (eng1, out) ->
  removeWatermarkFromImage P eng1 image watermarkType = Normal (eng1, out)
  /\ forall image',
       ImageData.width image' = ImageData.width image ->
       ImageData.height image' = ImageData.height image ->
       exists out',
         removeWatermarkFromImage P eng1 image' watermarkType = Normal (eng1, out').
Proof.
  intros Hcall.
  destruct (removeWatermarkFromImage_normal _ _ _ _ _ _ Hcall)
    as (alphaMap & Hget & Hout). cbn zeta in Hget, Hout.
  destruct (getAlphaMap_fields _ _ _ _ _ Hget) as (_ & Ht & _).
  assert (effectiveType eng1 watermarkType = effectiveType eng watermarkType)
    as Etype by (unfold effectiveType; by rewrite Ht).
  apply getAlphaMap_again in Hget.
  assert (forall image',
       ImageData.width image' = ImageData.width image ->
       ImageData.height image' = ImageData.height image ->
       removeWatermarkFromImage P eng1 image' watermarkType
       = Normal (eng1, ReverseBlend.removeWatermark (tint P) image' alphaMap
                         (calculateWatermarkPosition (ImageData.width image)
                            (ImageData.height image)
                            (detectWatermarkConfig (ImageData.width image)
                               (ImageData.height image)
                               (effectiveType eng watermarkType))))) as Hsame.
  { intros image' Hw Hh. unfold removeWatermarkFromImage in Hcall |- *.
    rewrite Hw, Hh, Etype. cbn zeta in Hcall |- *.
    destruct ((ImageData.width image =? 0) || (ImageData.height image =? 0));
      [done|].
    by rewrite Hget. }
  split.
  - rewrite Hout. by apply Hsame.
  - intros image' Hw Hh. eexists. by apply Hsame.
Qed.

Lemma removal_repeatable_witness :
  exists eng1 out,
    removeWatermarkFromImage examplePlatform exampleEngine (greyImage 33 33) None
      = Normal (eng1, out)
    /\ eng1 <> exampleEngine
    /\ removeWatermarkFromImage examplePlatform eng1 (greyImage 33 33) None
       = Normal (eng1, out)
    /\ forall image',
         ImageData.width image' = 33 -> ImageData.height image' = 33 ->
         exists out',
           removeWatermarkFromImage examplePlatform eng1 image' None
           = Normal (eng1, out').
Proof.
  eexists _, _. split; [vm_compute; reflexivity|]. split; [by vm_compute|].
  eapply (removal_repeatable examplePlatform exampleEngine _ (greyImage 33 33)).
  vm_compute. reflexivity.
Defined.

(** ** Where the resolved rectangle lies *)

Lemma Math_round_le_half (q : Q) : (inject_Z (Js.Math_round q) <= q + (1 # 2))%Q.
Proof. destruct (Math_round_nearest q) as [Hlo _]. lra. Qed.

Lemma rectFits_iff (W H : Z) (c : WatermarkConfig) :
  0 <= width c -> 0 <= height c -> 0 <= marginRight c -> 0 <= marginBottom c ->
  rectFits (calculateWatermarkPosition W H c) W H = true
  <-> width c + marginRight c <= W /\ height c + marginBottom c <= H.
Proof.
  intros Hw Hh Hr Hb. unfold rectFits, calculateWatermarkPosition. cbn.
  rewrite !andb_true_iff, !Z.leb_le. lia.
Qed.

(** Beyond 2048 the Gemini watermark and its margin together take less
    than the shorter edge. *)
Lemma gemini_large_footprint (e : Z) :
  2048 < e ->
  Js.Math_round (geminiSizeLine e) + Js.Math_round (geminiMarginLine e) <= e.
Proof.
  intros He.
  pose proof (Math_round_le_half (geminiSizeLine e)) as Hs.
  pose proof (Math_round_le_half (geminiMarginLine e)) as Hm.
  rewrite Zlt_Qlt in He. change (inject_Z 2048) with 2048%Q in He.
  rewrite Zle_Qle, inject_Z_plus.
  unfold geminiSizeLine, geminiMarginLine, GEMINI_SCALING.sizeSlope,
    GEMINI_SCALING.sizeIntercept, GEMINI_SCALING.marginSlope,
    GEMINI_SCALING.marginIntercept in *. lra.
Qed.

(** X5.  For every type other than 'doubao' the resolved rectangle lies
    within the image exactly when the image is at least 80 pixels wide and
    80 pixels high: the smallest watermark, 48 pixels with a margin of 32,
    is placed whatever the size of the image. *)
Theorem gemini_rect_fits_iff (W H : Z) (t : string) :
  0 < W -> 0 < H -> String.eqb t WATERMARK_TYPE.DOUBAO = false ->
  let config := detectWatermarkConfig W H t in
  rectFits (calculateWatermarkPosition W H config) W H = true
  <-> 80 <= W /\ 80 <= H.
Proof.
  intros HW HH Ht. cbn zeta.
  destruct (detectWatermarkConfig_nonneg W H t HW HH) as (Hw & Hh & Hr & Hb).
  rewrite rectFits_iff by done. clear Hw Hh Hr Hb.
  unfold detectWatermarkConfig. rewrite Ht.
  destruct (Z.le_gt_cases (Z.min W H) 2048) as [Hle | Hgt].
  - unfold calculateGeminiConfig, GEMINI_SCALING.smallMaxEdge.
    destruct (Z.leb_spec (Z.min W H) 1024); [cbn; lia|].
    apply Z.leb_le in Hle. rewrite Hle. cbn. lia.
  - rewrite calculateGeminiConfig_large by lia.
    cbn [width height marginRight marginBottom].
    pose proof (gemini_large_footprint (Z.min W H)) as Hfoot. lia.
Qed.

Lemma gemini_rect_fits_iff_witness :
  let config := detectWatermarkConfig 79 500 WATERMARK_TYPE.GEMINI in
  rectFits (calculateWatermarkPosition 79 500 config) 79 500 = true
  <-> 80 <= 79 /\ 80 <= 500.
Proof.
  apply (gemini_rect_fits_iff 79 500 WATERMARK_TYPE.GEMINI); [lia|lia|reflexivity].
Defined.

(** Two reference quantities that together are less than half the
    reference edge scale to at most the edge. *)
Lemma scaled_pair_fits (a b r s : Z) :
  0 <= a -> 0 <= b -> 2 * (a + b) < r -> 1 <= s ->
  Js.Math_round (inject_Z a * Js.div s r) + Js.Math_round (inject_Z b * Js.div s r)
  <= s.
Proof.
  intros Ha Hb Hr Hs.
  assert (0 < inject_Z r)%Q as Hr0.
  { change 0%Q with (inject_Z 0). rewrite <- Zlt_Qlt. lia. }
  assert (inject_Z a * Js.div s r == inject_Z (a * s) / inject_Z r)%Q as Ea.
  { unfold Js.div. rewrite inject_Z_mult. field. lra. }
  assert (inject_Z b * Js.div s r == inject_Z (b * s) / inject_Z r)%Q as Eb.
  { unfold Js.div. rewrite inject_Z_mult. field. lra. }
  rewrite (Math_round_Qeq _ _ Ea), (Math_round_Qeq _ _ Eb).
  destruct (Z.eq_dec s 1) as [-> | Hs1].
  - assert (forall c, 0 <= c -> 2 * c < r ->
                      Js.Math_round (inject_Z (c * 1) / inject_Z r) = 0) as Hzero.
    { intros c Hc0 Hc. apply (nearestInteger_unique (inject_Z (c * 1) / inject_Z r));
        [apply Math_round_nearest|].
      rewrite Z.mul_1_r. unfold nearestInteger. change (inject_Z 0) with 0%Q. split.
      - apply Qle_shift_div_l; [done|].
        assert (0 <= inject_Z c)%Q
          by (change 0%Q with (inject_Z 0); rewrite <- Zle_Qle; lia). lra.
      - apply Qlt_shift_div_r; [done|].
        assert (inject_Z (2 * c) < inject_Z r)%Q as Hlt by (rewrite <- Zlt_Qlt; lia).
        rewrite inject_Z_mult in Hlt. change (inject_Z 2) with 2%Q in Hlt. lra. }
    rewrite (Hzero a), (Hzero b) by lia. lia.
  - pose proof (Math_round_le_half (inject_Z (a * s) / inject_Z r)) as Hra.
    pose proof (Math_round_le_half (inject_Z (b * s) / inject_Z r)) as Hrb.
    assert (inject_Z (a * s) / inject_Z r + inject_Z (b * s) / inject_Z r
            <= (1 # 2) * inject_Z s)%Q as Hsum.
    { assert (inject_Z (a * s) / inject_Z r + inject_Z (b * s) / inject_Z r
              == inject_Z ((a + b) * s) / inject_Z r)%Q as ->.
      { rewrite !inject_Z_mult, inject_Z_plus. field. lra. }
      apply Qle_shift_div_r; [done|].
      assert (inject_Z (2 * ((a + b) * s)) <= inject_Z (s * r))%Q as Hle.
      { rewrite <- Zle_Qle. nia. }
      rewrite !inject_Z_mult in Hle. rewrite inject_Z_mult.
      change (inject_Z 2) with 2%Q in Hle. nra. }
    assert (2 <= inject_Z s)%Q as Hs2.
    { change 2%Q with (inject_Z 2). rewrite <- Zle_Qle. lia. }
    rewrite Zle_Qle, inject_Z_plus. lra.
Qed.

(** X6.  For the type 'doubao' the resolved rectangle lies within the image
    whatever the positive size of the image: watermark and margin together
    never exceed the shorter edge, in width and in height. *)
Theorem doubao_rect_fits (W H : Z) :
  0 < W -> 0 < H ->
  let config := detectWatermarkConfig W H WATERMARK_TYPE.DOUBAO in
  width config + marginRight config <= Z.min W H
  /\ height config + marginBottom config <= Z.min W H
  /\ rectFits (calculateWatermarkPosition W H config) W H = true.
Proof.
  intros HW HH. cbn zeta.
  destruct (detectWatermarkConfig_nonneg W H WATERMARK_TYPE.DOUBAO HW HH)
    as (Hw & Hh & Hr & Hb).
  assert (width (detectWatermarkConfig W H WATERMARK_TYPE.DOUBAO)
          + marginRight (detectWatermarkConfig W H WATERMARK_TYPE.DOUBAO)
          <= Z.min W H
          /\ height (detectWatermarkConfig W H WATERMARK_TYPE.DOUBAO)
             + marginBottom (detectWatermarkConfig W H WATERMARK_TYPE.DOUBAO)
             <= Z.min W H) as [Hwidth Hheight].
  { unfold detectWatermarkConfig. cbn [String.eqb WATERMARK_TYPE.DOUBAO].
    change (String.eqb "doubao" "doubao") with true. cbn iota.
    cbn [width height marginRight marginBottom].
    destruct (getDoubaoAspectCategory W H);
      cbn [DOUBAO_CONFIGS refWidth refHeight wmWidth wmHeight refMarginRight
             refMarginBottom];
      split; apply scaled_pair_fits; lia. }
  split; [done|]. split; [done|].
  apply rectFits_iff; [done..|]. lia.
Qed.

Lemma doubao_rect_fits_witness :
  let config := detectWatermarkConfig 3 1 WATERMARK_TYPE.DOUBAO in
  width config + marginRight config <= Z.min 3 1
  /\ height config + marginBottom config <= Z.min 3 1
  /\ rectFits (calculateWatermarkPosition 3 1 config) 3 1 = true.
Proof.
  apply (doubao_rect_fits 3 1); lia.
Defined.

(** X7.  Over all sizes, not only beyond the largest bucket, the Gemini
    width, height and margins do not decrease when the shorter edge grows:
    48 and 32 up to 1024, 96 and 64 up to 2048, and the interpolation starts
    no lower than 96 and 64. *)
Theorem gemini_monotone_everywhere (w1 h1 w2 h2 : Z) :
  Z.min w1 h1 <= Z.min w2 h2 ->
  let c1 := calculateGeminiConfig w1 h1 in
  let c2 := calculateGeminiConfig w2 h2 in
  width c1 <= width c2 /\ height c1 <= height c2
  /\ marginRight c1 <= marginRight c2 /\ marginBottom c1 <= marginBottom c2.
Proof.
  intros H12. cbn zeta.
  assert (forall w h, 2048 < Z.min w h ->
            96 <= Js.Math_round (geminiSizeLine (Z.min w h))
            /\ 64 <= Js.Math_round (geminiMarginLine (Z.min w h))) as Hfloor.
  { intros w h He. split.
    - change 96 with (Js.Math_round (geminiSizeLine 2049)).
      apply Math_round_mono, geminiSizeLine_mono. lia.
    - change 64 with (Js.Math_round (geminiMarginLine 2049)).
      apply Math_round_mono, geminiMarginLine_mono. lia. }
  destruct (Z.le_gt_cases (Z.min w2 h2) 2048) as [Hle2 | Hgt2].
  - unfold calculateGeminiConfig, GEMINI_SCALING.smallMaxEdge.
    destruct (Z.leb_spec (Z.min w1 h1) 1024), (Z.leb_spec (Z.min w2 h2) 1024);
      destruct (Z.leb_spec (Z.min w1 h1) 2048), (Z.leb_spec (Z.min w2 h2) 2048);
      cbn [width height marginRight marginBottom]; lia.
  - rewrite (calculateGeminiConfig_large w2 h2) by lia.
    destruct (Hfloor w2 h2) as [Hs2 Hm2]; [lia|].
    destruct (Z.le_gt_cases (Z.min w1 h1) 2048) as [Hle1 | Hgt1].
    + unfold calculateGeminiConfig at 1 2 3 4, GEMINI_SCALING.smallMaxEdge.
      destruct (Z.leb_spec (Z.min w1 h1) 1024);
        destruct (Z.leb_spec (Z.min w1 h1) 2048); cbn [width height marginRight marginBottom]; lia.
    + rewrite (calculateGeminiConfig_large w1 h1) by lia.
      cbn [width height marginRight marginBottom].
      pose proof (Math_round_mono _ _ (geminiSizeLine_mono _ _ H12)).
      pose proof (Math_round_mono _ _ (geminiMarginLine_mono _ _ H12)).
      lia.
Qed.

Lemma gemini_monotone_everywhere_witness :
  let c1 := calculateGeminiConfig 1024 4000 in
  let c2 := calculateGeminiConfig 2049 2049 in
  width c1 <= width c2 /\ height c1 <= height c2
  /\ marginRight c1 <= marginRight c2 /\ marginBottom c1 <= marginBottom c2.
Proof.
  apply (gemini_monotone_everywhere 1024 4000 2049 2049). by vm_compute.
Defined.

(** X8.  The two variants of the resolver that the file holds agree on
    every image whose shorter edge is at most 2048 when the type is not
    'doubao': same width, height, margins and logo size.  Beyond 2048 the
    two-size variant stays at 96 and 64, which the interpolating one never
    goes below. *)
Theorem two_bucket_agreement (w h : Z) (t : string) :
  String.eqb t WATERMARK_TYPE.DOUBAO = false ->
  let c := detectWatermarkConfig w h t in
  let c' := TwoBucket.detectWatermarkConfig w h t in
  type c = type c'
  /\ (Z.min w h <= 2048 ->
      width c = width c' /\ height c = height c'
      /\ marginRight c = marginRight c' /\ marginBottom c = marginBottom c'
      /\ logoSize c = logoSize c')
  /\ (2048 < Z.min w h ->
      width c' = 96 /\ marginRight c' = 64
      /\ 96 <= width c /\ 64 <= marginRight c).
Proof.
  intros Ht. cbn zeta.
  unfold detectWatermarkConfig, TwoBucket.detectWatermarkConfig. rewrite Ht.
  split; [|split].
  - unfold calculateGeminiConfig. by repeat case_match.
  - intros Hle. unfold calculateGeminiConfig, GEMINI_SCALING.smallMaxEdge.
    apply Z.leb_le in Hle as Hle'. rewrite Hle'.
    destruct (Z.leb_spec (Z.min w h) 1024), (Z.ltb_spec 1024 w),
      (Z.ltb_spec 1024 h); cbn; try done; lia.
  - intros Hgt. rewrite calculateGeminiConfig_large by done.
    destruct (Z.ltb_spec 1024 w); [|lia]. destruct (Z.ltb_spec 1024 h); [|lia].
    cbn [width height marginRight marginBottom]. split; [done|]. split; [done|].
    split.
    + change 96 with (Js.Math_round (geminiSizeLine 2049)).
      apply Math_round_mono, geminiSizeLine_mono. lia.
    + change 64 with (Js.Math_round (geminiMarginLine 2049)).
      apply Math_round_mono, geminiMarginLine_mono. lia.
Qed.

Lemma two_bucket_agreement_witness :
  let c := detectWatermarkConfig 1500 1025 WATERMARK_TYPE.GEMINI in
  let c' := TwoBucket.detectWatermarkConfig 1500 1025 WATERMARK_TYPE.GEMINI in
  type c = type c'
  /\ (Z.min 1500 1025 <= 2048 ->
      width c = width c' /\ height c = height c'
      /\ marginRight c = marginRight c' /\ marginBottom c = marginBottom c'
      /\ logoSize c = logoSize c')
  /\ (2048 < Z.min 1500 1025 ->
      width c' = 96 /\ marginRight c' = 64
      /\ 96 <= width c /\ 64 <= marginRight c).
Proof.
  apply (two_bucket_agreement 1500 1025 WATERMARK_TYPE.GEMINI). reflexivity.
Defined.

(** ** Empty watermarks, transposed images, multiples of the reference *)

Lemma Math_round_zero_iff (a s r : Z) :
  0 <= a -> 0 <= s -> 0 < r ->
  Js.Math_round (inject_Z a * Js.div s r) = 0 <-> 2 * a * s < r.
Proof.
  intros Ha Hs Hr.
  assert (0 < inject_Z r)%Q as Hr0.
  { change 0%Q with (inject_Z 0). rewrite <- Zlt_Qlt. lia. }
  assert (inject_Z a * Js.div s r == inject_Z (a * s) / inject_Z r)%Q as E.
  { unfold Js.div. rewrite inject_Z_mult. field. lra. }
  rewrite (Math_round_Qeq _ _ E).
  assert (0 <= inject_Z (a * s))%Q as Has.
  { change 0%Q with (inject_Z 0). rewrite <- Zle_Qle. nia. }
  assert (2 * a * s < r <-> (2 * inject_Z (a * s) < inject_Z r)%Q) as ->.
  { change 2%Q with (inject_Z 2). rewrite <- inject_Z_mult, <- Zlt_Qlt. lia. }
  split.
  - intros Hzero.
    destruct (Math_round_nearest (inject_Z (a * s) / inject_Z r)) as [_ Hhi].
    rewrite Hzero in Hhi. change (inject_Z 0) with 0%Q in Hhi.
    assert (inject_Z (a * s) / inject_Z r < 1 # 2)%Q as Hlt by lra.
    apply (Qmult_lt_r _ _ (inject_Z r) Hr0) in Hlt.
    assert (inject_Z (a * s) / inject_Z r * inject_Z r == inject_Z (a * s))%Q
      as E' by (field; lra).
    rewrite E' in Hlt. lra.
  - intros Hlt.
    apply (nearestInteger_unique (inject_Z (a * s) / inject_Z r));
      [apply Math_round_nearest|].
    unfold nearestInteger. change (inject_Z 0) with 0%Q. split.
    + apply Qle_shift_div_l; [done|]. lra.
    + apply Qlt_shift_div_r; [done|]. lra.
Qed.

(** The largest shorter edge at which the Doubao watermark of a bucket still
    has no height. *)
Lemma doubao_height_zero_iff (c : AspectCategory) (s : Z) :
  0 <= s ->
  Js.Math_round
    (inject_Z (wmHeight (DOUBAO_CONFIGS c))
     * Js.div s (Z.min (refWidth (DOUBAO_CONFIGS c)) (refHeight (DOUBAO_CONFIGS c))))
  = 0
  <-> s <= match c with Cat1x1 => 8 | Cat2x3 => 19 | Cat3x2 => 11 end.
Proof.
  intros Hs. rewrite Math_round_zero_iff; [|destruct c; cbn; lia..].
  destruct c; cbn; lia.
Qed.

Lemma doubao_width_zero_height_zero (c : AspectCategory) (s : Z) :
  0 <= s ->
  Js.Math_round
    (inject_Z (wmWidth (DOUBAO_CONFIGS c))
     * Js.div s (Z.min (refWidth (DOUBAO_CONFIGS c)) (refHeight (DOUBAO_CONFIGS c))))
  = 0 ->
  Js.Math_round
    (inject_Z (wmHeight (DOUBAO_CONFIGS c))
     * Js.div s (Z.min (refWidth (DOUBAO_CONFIGS c)) (refHeight (DOUBAO_CONFIGS c))))
  = 0.
Proof.
  intros Hs. rewrite !Math_round_zero_iff; [|destruct c; cbn; lia..].
  destruct c; cbn; lia.
Qed.

(** X18.  The canvas cannot hold an empty alpha map, so [getAlphaMap] throws
    on a cache miss exactly when the resolved watermark has no width or no
    height.  For 'doubao' that is the case exactly when the shorter edge of
    the image is at most 8 ('1x1'), 19 ('2x3') or 11 ('3x2') pixels; for every
    other type the watermark is at least 48 by 48 and [getAlphaMap] never
    throws. *)
Theorem empty_watermark_iff (P : Platform) (eng : WatermarkEngine)
    (W H : Z) (t : string) :
  0 < W -> 0 < H ->
  let config := detectWatermarkConfig W H t in
  (alphaMaps eng !! cacheKey config = None ->
   (isThrow (getAlphaMap P eng config) = true
    <-> width config = 0 \/ height config = 0))
  /\ (t = WATERMARK_TYPE.DOUBAO ->
      (width config = 0 \/ height config = 0
       <-> Z.min W H <= match getDoubaoAspectCategory W H with
                        | Cat1x1 => 8
                        | Cat2x3 => 19
                        | Cat3x2 => 11
                        end))
  /\ (String.eqb t WATERMARK_TYPE.DOUBAO = false ->
      48 <= width config /\ 48 <= height config
      /\ isThrow (getAlphaMap P eng config) = false).
Proof.
  intros HW HH. cbn zeta. split; [|split].
  - intros Hmiss. unfold getAlphaMap, deriveAlphaMap. rewrite Hmiss.
    destruct (sourceSize _ _) as [sw sh].
    destruct (Z.eqb_spec (width (detectWatermarkConfig W H t)) 0) as [Hw | Hw];
      destruct (Z.eqb_spec (height (detectWatermarkConfig W H t)) 0) as [Hh | Hh];
      cbn; split; try done; try tauto; intros [? | ?]; done.
  - intros ->. unfold detectWatermarkConfig.
    change (String.eqb WATERMARK_TYPE.DOUBAO WATERMARK_TYPE.DOUBAO) with true.
    cbn iota. cbn [width height].
    rewrite <- doubao_height_zero_iff by lia. split; [|by right].
    intros [Hw | Hh]; [|done]. by apply doubao_width_zero_height_zero; [lia|].
  - intros Ht.
    assert (48 <= width (detectWatermarkConfig W H t)
            /\ 48 <= height (detectWatermarkConfig W H t)) as [Hw Hh].
    { unfold detectWatermarkConfig. rewrite Ht.
      destruct (Z.le_gt_cases (Z.min W H) 2048) as [Hle | Hgt].
      - unfold calculateGeminiConfig, GEMINI_SCALING.smallMaxEdge.
        destruct (Z.min W H <=? 1024); [cbn; lia|].
        apply Z.leb_le in Hle. rewrite Hle. cbn. lia.
      - rewrite calculateGeminiConfig_large by lia. cbn [width height].
        assert (96 <= Js.Math_round (geminiSizeLine (Z.min W H))); [|lia].
        change 96 with (Js.Math_round (geminiSizeLine 2049)).
        apply Math_round_mono, geminiSizeLine_mono. lia. }
    split; [done|]. split; [done|].
    destruct (getAlphaMap_normal P eng (detectWatermarkConfig W H t))
      as (eng' & alphaMap & ->); [lia..|done].
Qed.

Lemma empty_watermark_iff_witness :
  let config := detectWatermarkConfig 15 30 WATERMARK_TYPE.DOUBAO in
  (alphaMaps exampleEngine !! cacheKey config = None ->
   (isThrow (getAlphaMap examplePlatform exampleEngine config) = true
    <-> width config = 0 \/ height config = 0))
  /\ (WATERMARK_TYPE.DOUBAO = WATERMARK_TYPE.DOUBAO ->
      (width config = 0 \/ height config = 0
       <-> Z.min 15 30 <= match getDoubaoAspectCategory 15 30 with
                          | Cat1x1 => 8
                          | Cat2x3 => 19
                          | Cat3x2 => 11
                          end))
  /\ (String.eqb WATERMARK_TYPE.DOUBAO WATERMARK_TYPE.DOUBAO = false ->
      48 <= width config /\ 48 <= height config
      /\ isThrow (getAlphaMap examplePlatform exampleEngine config) = false).
Proof.
  apply (empty_watermark_iff examplePlatform exampleEngine 15 30
           WATERMARK_TYPE.DOUBAO); lia.
Defined.

Lemma aspect_by_integers (W H : Z) :
  0 < W -> 0 < H ->
  (getDoubaoAspectCategory W H = Cat2x3 <-> 5 * W < 4 * H)
  /\ (getDoubaoAspectCategory W H = Cat3x2 <-> 6 * H < 5 * W)
  /\ (getDoubaoAspectCategory W H = Cat1x1 <-> 4 * H <= 5 * W /\ 5 * W <= 6 * H).
Proof.
  intros HW HH.
  assert (0 < inject_Z H)%Q as HH0.
  { change 0%Q with (inject_Z 0). by rewrite <- Zlt_Qlt. }
  assert ((Js.div W H < 8 # 10)%Q <-> 5 * W < 4 * H) as Htall.
  { unfold Js.div. split.
    - intros Hlt. apply (Qmult_lt_r _ _ (inject_Z H) HH0) in Hlt.
      assert (inject_Z W / inject_Z H * inject_Z H == inject_Z W)%Q as E
        by (field; lra).
      rewrite E in Hlt.
      assert (inject_Z (5 * W) < inject_Z (4 * H))%Q as Hz.
      { rewrite !inject_Z_mult. change (inject_Z 5) with 5%Q.
        change (inject_Z 4) with 4%Q. lra. }
      by rewrite <- Zlt_Qlt in Hz.
    - intros Hz. rewrite Zlt_Qlt, !inject_Z_mult in Hz.
      change (inject_Z 5) with 5%Q in Hz. change (inject_Z 4) with 4%Q in Hz.
      apply Qlt_shift_div_r; [done|]. lra. }
  assert ((12 # 10 < Js.div W H)%Q <-> 6 * H < 5 * W) as Hwide.
  { unfold Js.div. split.
    - intros Hlt. apply (Qmult_lt_r _ _ (inject_Z H) HH0) in Hlt.
      assert (inject_Z W / inject_Z H * inject_Z H == inject_Z W)%Q as E
        by (field; lra).
      rewrite E in Hlt.
      assert (inject_Z (6 * H) < inject_Z (5 * W))%Q as Hz.
      { rewrite !inject_Z_mult. change (inject_Z 5) with 5%Q.
        change (inject_Z 6) with 6%Q. lra. }
      by rewrite <- Zlt_Qlt in Hz.
    - intros Hz. rewrite Zlt_Qlt, !inject_Z_mult in Hz.
      change (inject_Z 5) with 5%Q in Hz. change (inject_Z 6) with 6%Q in Hz.
      apply Qlt_shift_div_l; [done|]. lra. }
  unfold getDoubaoAspectCategory, Js.gtb.
  destruct (Js.ltb (Js.div W H) (8 # 10)) eqn:E1.
  - apply ltb_spec, Htall in E1. repeat split; try done; lia.
  - apply ltb_false in E1.
    assert (4 * H <= 5 * W) as Hnot.
    { destruct (Z.le_gt_cases (4 * H) (5 * W)) as [|Hgt]; [done|].
      apply Htall in Hgt. lra. }
    destruct (Js.ltb (12 # 10) (Js.div W H)) eqn:E2.
    + apply ltb_spec, Hwide in E2. repeat split; try done; lia.
    + apply ltb_false in E2.
      assert (5 * W <= 6 * H) as Hnot2.
      { destruct (Z.le_gt_cases (5 * W) (6 * H)) as [|Hgt]; [done|].
        apply Hwide in Hgt. lra. }
      repeat split; try done; lia.
Qed.

(** X19.  Turning a tall image on its side gives a wide one, and turning a
    square one never gives a tall one; but the two thresholds are not each
    other's inverse (1 / 0.8 is 1.25, not 1.2), so an image whose width is
    more than 1.2 times and at most 1.25 times its height is wide one way and
    square the other. *)
Theorem transposed_aspect (W H : Z) :
  0 < W -> 0 < H ->
  (getDoubaoAspectCategory W H = Cat2x3 -> getDoubaoAspectCategory H W = Cat3x2)
  /\ (getDoubaoAspectCategory W H = Cat1x1 -> getDoubaoAspectCategory H W <> Cat2x3)
  /\ (getDoubaoAspectCategory W H = Cat3x2
      /\ getDoubaoAspectCategory H W = Cat1x1
      <-> 6 * H < 5 * W /\ 4 * W <= 5 * H).
Proof.
  intros HW HH.
  destruct (aspect_by_integers W H HW HH) as (Htall & Hwide & Hsquare).
  destruct (aspect_by_integers H W HH HW) as (Htall' & Hwide' & Hsquare').
  rewrite Htall, Hwide, Hsquare, Htall', Hwide', Hsquare'. lia.
Qed.

Lemma transposed_aspect_witness :
  (getDoubaoAspectCategory 100 82 = Cat2x3 ->
   getDoubaoAspectCategory 82 100 = Cat3x2)
  /\ (getDoubaoAspectCategory 100 82 = Cat1x1 ->
      getDoubaoAspectCategory 82 100 <> Cat2x3)
  /\ (getDoubaoAspectCategory 100 82 = Cat3x2
      /\ getDoubaoAspectCategory 82 100 = Cat1x1
      <-> 6 * 82 < 5 * 100 /\ 4 * 100 <= 5 * 82).
Proof.
  apply (transposed_aspect 100 82); lia.
Defined.

(** X20.  An image whose shorter edge is a whole multiple of the shorter
    edge of its bucket's reference gets exactly that multiple of the four
    measured quantities; at the reference size itself it gets the measured
    quantities. *)
Theorem doubao_whole_multiples (W H k : Z) :
  0 <= k ->
  let ref := DOUBAO_CONFIGS (getDoubaoAspectCategory W H) in
  Z.min W H = k * Z.min (refWidth ref) (refHeight ref) ->
  let c := detectWatermarkConfig W H WATERMARK_TYPE.DOUBAO in
  width c = k * wmWidth ref /\ height c = k * wmHeight ref
  /\ marginRight c = k * refMarginRight ref
  /\ marginBottom c = k * refMarginBottom ref.
Proof.
  intros Hk ref Hmin. cbn zeta. unfold detectWatermarkConfig.
  change (String.eqb WATERMARK_TYPE.DOUBAO WATERMARK_TYPE.DOUBAO) with true.
  cbn iota. cbn [width height marginRight marginBottom]. fold ref.
  rewrite Hmin.
  assert (0 < Z.min (refWidth ref) (refHeight ref)) as Hr
    by (unfold ref; destruct (getDoubaoAspectCategory W H); cbn; lia).
  assert (forall a, Js.Math_round
                      (inject_Z a
                       * Js.div (k * Z.min (refWidth ref) (refHeight ref))
                           (Z.min (refWidth ref) (refHeight ref)))
                    = k * a) as Hscale.
  { intros a. rewrite <- (Math_round_inject (k * a)). apply Math_round_Qeq.
    unfold Js.div. rewrite !inject_Z_mult.
    assert (0 < inject_Z (Z.min (refWidth ref) (refHeight ref)))%Q as Hr0.
    { change 0%Q with (inject_Z 0). by rewrite <- Zlt_Qlt. }
    field. lra. }
  by rewrite !Hscale.
Qed.

Lemma doubao_whole_multiples_witness :
  let ref := DOUBAO_CONFIGS (getDoubaoAspectCategory 5016 3344) in
  let c := detectWatermarkConfig 5016 3344 WATERMARK_TYPE.DOUBAO in
  width c = 2 * wmWidth ref /\ height c = 2 * wmHeight ref
  /\ marginRight c = 2 * refMarginRight ref
  /\ marginBottom c = 2 * refMarginBottom ref.
Proof.
  apply (doubao_whole_multiples 5016 3344 2); [lia | reflexivity].
Defined.

(** ** The image queue *)

Lemma append_String (a : ascii) (s t : string) :
  String a s +:+ t = String a (s +:+ t).
Proof. reflexivity. Qed.

Lemma append_Empty (t : string) : EmptyString +:+ t = t.
Proof. reflexivity. Qed.

Lemma prefix_spec (sub s : string) :
  String.prefix sub s = true <-> exists post, s = sub +:+ post.
Proof.
  revert s. induction sub as [|a sub IH]; intros [|b s]; cbn [String.prefix];
    rewrite ?append_Empty; setoid_rewrite append_String || idtac.
  - split; [by exists EmptyString | done].
  - split; [by exists (String b s) | done].
  - split; [done | by intros [post Hpost]].
  - destruct (Ascii.ascii_dec a b) as [-> | Hne].
    + rewrite IH. split; intros [post Hpost]; exists post; congruence.
    + split; [done | intros [post Hpost]; congruence].
Qed.

Lemma includes_spec (sub s : string) :
  includes sub s = true <-> exists pre post, s = pre +:+ sub +:+ post.
Proof.
  induction s as [|c s IH]; cbn [includes]; rewrite orb_true_iff, prefix_spec.
  - split.
    + intros [[post Hpost] | ?]; [|done]. by exists EmptyString, post.
    + intros (pre & post & Hs). left.
      destruct pre; [by exists post | by rewrite append_String in Hs].
  - rewrite IH. split.
    + intros [[post Hpost] | (pre & post & Hs)].
      * by exists EmptyString, post.
      * exists (String c pre), post. by rewrite append_String, Hs.
    + intros (pre & post & Hs). destruct pre as [|c' pre].
      * left. by exists post.
      * right. exists pre, post. rewrite append_String in Hs. congruence.
Qed.

(** X10.  [filterValidFiles] keeps, in their order, exactly the files of at
    most 20 MiB (20971520 bytes, the bound included) whose type has
    'image/jpeg', 'image/png' or 'image/webp' somewhere in it; the test is a
    search, not a comparison, so any text may come before and after.
    Filtering again changes nothing. *)
Theorem filterValidFiles_spec (files : list File.t) :
  (forall file,
     In file (filterValidFiles files) <->
     In file files
     /\ (exists kind pre post,
           In kind ["image/jpeg"; "image/png"; "image/webp"]
           /\ File.type file = pre +:+ kind +:+ post)
     /\ File.size file <= 20971520)
  /\ sublist (filterValidFiles files) files
  /\ filterValidFiles (filterValidFiles files) = filterValidFiles files.
Proof.
  assert (forall file,
    (if negb (matchesImageType (File.type file)) then false
     else if 20 * 1024 * 1024 <? File.size file then false else true) = true
    <-> (exists kind pre post,
           In kind ["image/jpeg"; "image/png"; "image/webp"]
           /\ File.type file = pre +:+ kind +:+ post)
        /\ File.size file <= 20971520) as Htest.
  { intros file. unfold matchesImageType.
    destruct (includes "image/jpeg" (File.type file)) eqn:Ej;
      [|destruct (includes "image/png" (File.type file)) eqn:Ep;
        [|destruct (includes "image/webp" (File.type file)) eqn:Ew]];
      cbn [orb negb].
    1-3: destruct (Z.ltb_spec (20 * 1024 * 1024) (File.size file));
         (split; [intros Hk; try done | intros [_ Hsize]; try done; lia]);
         (split; [|lia]).
    1-3: match goal with
         | E : includes ?k _ = true |- _ =>
             apply includes_spec in E as (pre & post & E);
             exists k, pre, post; split; [cbn; tauto | exact E]
         end.
    split; [done|]. intros [(kind & pre & post & Hkind & Htype) _].
    assert (includes kind (File.type file) = true) as Hinc
      by (apply includes_spec; by exists pre, post).
    cbn in Hkind. destruct Hkind as [<- | [<- | [<- | []]]]; congruence. }
  split; [|split].
  - intros file. unfold filterValidFiles. rewrite filter_In, Htest. tauto.
  - unfold filterValidFiles. induction files as [|file files IH]; cbn; [done|].
    destruct (if negb _ then _ else _); by constructor.
  - unfold filterValidFiles. induction files as [|file files IH]; cbn; [done|].
    destruct (if negb (matchesImageType (File.type file)) then false
              else if 20 * 1024 * 1024 <? File.size file then false else true)
      eqn:E; cbn; [|done].
    by rewrite E, IH.
Qed.

(** X11.  [createImageQueue] builds one pending item per file, in order and
    without image or result, and resets the counter.  As long as the clock
    does not run backwards while the items are built, their ids are pairwise
    different, also when the clock does not advance at all. *)
Theorem createImageQueue_ids_distinct (now : nat -> Z) (st : ProcessorState)
    (files : list File.t) :
  (forall i j, (i <= j)%nat -> now i <= now j) ->
  let st' := createImageQueue now st files in
  NoDup (Item.id <$> imageQueue st')
  /\ Item.file <$> imageQueue st' = files
  /\ Item.name <$> imageQueue st' = File.name <$> files
  /\ Forall (fun item => Item.status item = StatusPending
                         /\ Item.originalImg item = None
                         /\ Item.processedBlob item = None) (imageQueue st')
  /\ processedCount st' = 0
  /\ engine st' = engine st.
Proof.
  intros Hclock. cbn zeta. unfold createImageQueue.
  cbn [imageQueue processedCount engine].
  split; [|split; [|split; [|split; [|done]]]].
  - apply NoDup_alt. intros i j v Hi Hj.
    rewrite list_lookup_fmap, list_lookup_imap in Hi, Hj.
    destruct (files !! i) as [fi|] eqn:Ei; [|done].
    destruct (files !! j) as [fj|] eqn:Ej; [|done].
    cbn in Hi, Hj. injection Hi as Hi. injection Hj as Hj.
    destruct (Nat.lt_trichotomy i j) as [Hlt | [-> | Hgt]]; [|done|].
    + pose proof (Hclock i j). lia.
    + pose proof (Hclock j i). lia.
  - apply list_eq. intros i. rewrite list_lookup_fmap, list_lookup_imap.
    by destruct (files !! i).
  - apply list_eq. intros i. rewrite !list_lookup_fmap, list_lookup_imap.
    by destruct (files !! i).
  - apply Forall_lookup. intros i item. rewrite list_lookup_imap.
    destruct (files !! i); [|done]. by intros [= <-].
Qed.

Lemma createImageQueue_ids_distinct_witness :
  let files := [File.mk "a.png" "image/png" 10; File.mk "a.png" "image/png" 10;
                File.mk "b.jpg" "image/jpeg" 20] in
  let st := {| engine := None; imageQueue := []; processedCount := 7 |} in
  let st' := createImageQueue (fun _ => 1700000000000) st files in
  NoDup (Item.id <$> imageQueue st')
  /\ Item.file <$> imageQueue st' = files
  /\ Item.name <$> imageQueue st' = File.name <$> files
  /\ Forall (fun item => Item.status item = StatusPending
                         /\ Item.originalImg item = None
                         /\ Item.processedBlob item = None) (imageQueue st')
  /\ processedCount st' = 0
  /\ engine st' = engine st.
Proof.
  apply (createImageQueue_ids_distinct (fun _ => 1700000000000)).
  intros i j _. lia.
Defined.

Lemma slicesFrom_concat {A} (c fuel i : nat) (queue : list A) :
  (0 < c)%nat -> (length queue <= i + fuel * c)%nat ->
  concat (slicesFrom fuel i c queue) = drop i queue.
Proof.
  intros Hc. revert i. induction fuel as [|fuel IH]; intros i Hfuel;
    cbn [slicesFrom].
  - symmetry. apply drop_ge. lia.
  - destruct (Nat.ltb_spec i (length queue)) as [Hlt | Hge].
    + rewrite concat_cons, IH by lia. rewrite <- (drop_drop queue c i).
      apply take_drop.
    + symmetry. by apply drop_ge.
Qed.

Lemma slicesFrom_sizes {A} (c fuel i : nat) (queue : list A) :
  (0 < c)%nat ->
  Forall (fun batch => (0 < length batch <= c)%nat) (slicesFrom fuel i c queue).
Proof.
  intros Hc. revert i. induction fuel as [|fuel IH]; intros i;
    cbn [slicesFrom]; [done|].
  destruct (Nat.ltb_spec i (length queue)) as [Hlt | Hge]; [|done].
  constructor; [|apply IH].
  rewrite length_take, length_drop. lia.
Qed.

Lemma passWith_app {S A B} (f : S -> A -> S * B) (acc : S) (l1 l2 : list A) :
  passWith f acc (l1 ++ l2) =
    let '(acc1, r1) := passWith f acc l1 in
    let '(acc2, r2) := passWith f acc1 l2 in
    (acc2, r1 ++ r2).
Proof.
  revert acc. induction l1 as [|a l1 IH]; intros acc; cbn.
  - by destruct (passWith f acc l2).
  - destruct (f acc a) as [acc1 b]. rewrite IH.
    destruct (passWith f acc1 l1) as [acc2 r1].
    by destruct (passWith f acc2 l2).
Qed.

Lemma processBatches_concat (P : Platform) (acc : option WatermarkEngine * Z)
    (batches : list (list Item.t)) :
  processBatches P acc batches = passWith (processItem P) acc (concat batches).
Proof.
  revert acc. induction batches as [|batch rest IH]; intros acc; cbn; [done|].
  rewrite passWith_app. destruct (passWith (processItem P) acc batch) as [acc1 r1].
  by rewrite IH.
Qed.

Lemma slices_concat {A} (queue : list A) : concat (slices 3 queue) = queue.
Proof.
  unfold slices. rewrite slicesFrom_concat by lia. apply drop_0.
Qed.

(** X12.  The loop of [processQueue] cuts the queue into consecutive
    batches of three items, the last one of one to three, that together are
    the queue in its order; and since every call enters the engine in the
    order of the items, processing the batches comes to processing the
    items one after the other. *)
Theorem batches_cover_queue (P : Platform) (acc : option WatermarkEngine * Z)
    (queue : list Item.t) :
  concat (slices 3 queue) = queue
  /\ Forall (fun batch => (1 <= length batch <= 3)%nat) (slices 3 queue)
  /\ (length (slices 3 queue) = (length queue + 2) / 3)%nat
  /\ processBatches P acc (slices 3 queue) = passWith (processItem P) acc queue.
Proof.
  pose proof (slices_concat queue) as Hconcat.
  split; [done|]. split; [|split].
  - unfold slices.
    assert (0 < 3)%nat as H3 by lia.
    pose proof (slicesFrom_sizes 3 (length queue) 0 queue H3) as Hsizes.
    eapply Forall_impl; [|exact Hsizes]. intros batch. cbn beta. lia.
  - unfold slices.
    assert (forall fuel i, (length queue <= i + fuel * 3)%nat ->
              length (slicesFrom fuel i 3 queue)
              = ((length queue - i + 2) / 3)%nat) as Hlen.
    { induction fuel as [|fuel IH]; intros i Hfuel; cbn [slicesFrom].
      - replace (length queue - i + 2)%nat with 2%nat by lia. done.
      - destruct (Nat.ltb_spec i (length queue)) as [Hlt | Hge].
        + cbn [length]. rewrite IH by lia.
          destruct (le_lt_dec 3 (length queue - i)) as [Hfull | Hlast].
          * replace (length queue - i + 2)%nat
              with (1 * 3 + (length queue - (i + 3) + 2))%nat by lia.
            by rewrite Nat.div_add_l.
          * replace (length queue - (i + 3) + 2)%nat with 2%nat by lia.
            assert (length queue - i = 1 \/ length queue - i = 2)%nat
              as [-> | ->] by lia; reflexivity.
        + replace (length queue - i + 2)%nat with 2%nat by lia. done. }
    rewrite Hlen by lia. by rewrite Nat.sub_0_r.
  - by rewrite processBatches_concat, Hconcat.
Qed.

(** The number of files [downloadAll] would put in the archive. *)
Lemma zipFiles_cons_length (item : Item.t) (queue : list Item.t) :
  length (zipFiles (item :: queue)) =
    ((if decide (Item.status item = StatusCompleted) then 1 else 0)
     + length (zipFiles queue))%nat.
Proof.
  unfold zipFiles. cbn [List.filter].
  destruct (decide (Item.status item = StatusCompleted)) as [Hc | Hc].
  - by rewrite (bool_decide_eq_true_2 _ Hc).
  - by rewrite (bool_decide_eq_false_2 _ Hc).
Qed.

Lemma processItem_step (P : Platform) (acc acc' : option WatermarkEngine * Z)
    (item item' : Item.t) :
  processItem P acc item = (acc', item') ->
  itemStep item item'
  /\ acc'.2 + Z.of_nat (length (zipFiles [item]))
     = acc.2 + Z.of_nat (length (zipFiles [item'])).
Proof.
  unfold processItem, itemStep. rewrite !zipFiles_cons_length.
  destruct (decide (Item.status item = StatusPending)) as [Hp | Hp].
  - rewrite decide_False by congruence.
    destruct acc as [[eng|] count]; cbn [fst snd].
    + destruct (Item.originalImg item) as [img|] eqn:Himg.
      * destruct (removeWatermarkFromImage P eng img None) as [[eng' out]|e].
        -- intros [= <- <-]. cbn. rewrite decide_True by done.
           split; [|lia]. repeat split; try done. left. by eauto.
        -- intros [= <- <-]. cbn. rewrite decide_False by done.
           split; [|lia]. repeat split; try done. right. by eauto.
      * intros [= <- <-]. cbn. rewrite decide_False by done.
        split; [|lia]. repeat split; try done. by right.
    + intros [= <- <-]. cbn. rewrite decide_False by done.
      split; [|lia]. repeat split; try done. by right.
  - intros [= <- <-]. split; [by repeat split|]. lia.
Qed.

Lemma passWith_processItem (P : Platform) (queue : list Item.t) :
  forall (acc acc' : option WatermarkEngine * Z) (queue' : list Item.t),
    passWith (processItem P) acc queue = (acc', queue') ->
    Forall2 itemStep queue queue'
    /\ acc'.2 + Z.of_nat (length (zipFiles queue))
       = acc.2 + Z.of_nat (length (zipFiles queue')).
Proof.
  induction queue as [|item queue IH]; intros acc acc' queue'; cbn [passWith].
  - intros [= <- <-]. split; [constructor | lia].
  - destruct (processItem P acc item) as [acc1 item1] eqn:Hitem.
    destruct (passWith (processItem P) acc1 queue) as [acc2 rest] eqn:Hrest.
    intros [= <- <-].
    destruct (processItem_step _ _ _ _ _ Hitem) as [Hstep Hcount1].
    destruct (IH _ _ _ Hrest) as [Hsteps Hcount2].
    split; [by constructor|].
    rewrite !zipFiles_cons_length in *. cbn [length] in *. lia.
Qed.

Lemma loadItem_fields (loadImage : File.t -> option ImageData.t) (item : Item.t) :
  Item.id (loadItem loadImage item) = Item.id item
  /\ Item.file (loadItem loadImage item) = Item.file item
  /\ Item.name (loadItem loadImage item) = Item.name item
  /\ Item.status (loadItem loadImage item) = Item.status item
  /\ Item.processedBlob (loadItem loadImage item) = Item.processedBlob item
  /\ Item.originalImg (loadItem loadImage item)
     = match loadImage (Item.file item) with
       | Some img => Some img
       | None => Item.originalImg item
       end.
Proof. unfold loadItem. by destruct (loadImage (Item.file item)). Qed.

Lemma zipFiles_loaded (loadImage : File.t -> option ImageData.t)
    (queue : list Item.t) :
  length (zipFiles (map (loadItem loadImage) queue)) = length (zipFiles queue).
Proof.
  induction queue as [|item queue IH]; [done|].
  cbn [map]. rewrite !zipFiles_cons_length, IH.
  destruct (loadItem_fields loadImage item) as (_ & _ & _ & -> & _). done.
Qed.

Lemma all_loaded_spec (loadImage : File.t -> option ImageData.t)
    (queue : list Item.t) :
  forallb (fun item => bool_decide (is_Some (loadImage (Item.file item)))) queue
  = true
  <-> forall item, In item queue -> is_Some (loadImage (Item.file item)).
Proof.
  rewrite forallb_forall. split; intros Hall item Hin.
  - exact (bool_decide_eq_true_1 _ (Hall item Hin)).
  - exact (bool_decide_eq_true_2 _ (Hall item Hin)).
Qed.

Lemma processQueue_done (P : Platform) (loadImage : File.t -> option ImageData.t)
    (st st' : ProcessorState) :
  processQueue P loadImage st = QueueDone st' ->
  (forall item, In item (imageQueue st) -> is_Some (loadImage (Item.file item)))
  /\ passWith (processItem P) (engine st, processedCount st)
       (map (loadItem loadImage) (imageQueue st))
     = ((engine st', processedCount st'), imageQueue st').
Proof.
  unfold processQueue.
  destruct (forallb _ (imageQueue st)) eqn:Hall; [|done].
  pose proof (proj1 (all_loaded_spec loadImage (imageQueue st)) Hall) as Hall'.
  rewrite processBatches_concat, slices_concat.
  destruct (passWith _ _ _) as [[eng count] items].
  by intros [= <-].
Qed.

(** The names of an archive built by successive [zip.file] calls. *)
Lemma foldl_insert_dom {V} (entries : list (string * V)) (archive : gmap string V) :
  dom (foldl (fun archive entry => <[entry.1 := entry.2]> archive) archive entries)
  = dom archive ∪ list_to_set entries.*1.
Proof.
  revert archive. induction entries as [|[name blob] entries IH]; intros archive.
  - cbn. by rewrite (right_id_L ∅ (∪)).
  - cbn [foldl fmap list_fmap fst snd]. rewrite IH, dom_insert_L.
    rewrite list_to_set_cons. by rewrite (assoc_L (∪)), (comm_L (∪) (dom archive)).
Qed.

(** A list of names has as many different names as it has names exactly
    when no name comes twice. *)
Lemma distinct_names_count (names : list string) :
  (size (list_to_set names : gset string) <= length names)%nat
  /\ (size (list_to_set names : gset string) = length names <-> NoDup names).
Proof.
  induction names as [|name names [IHle IHeq]].
  - split; [done|]. split; [constructor | done].
  - rewrite list_to_set_cons. cbn [length].
    destruct (decide (name ∈ names)) as [Hin | Hout].
    + assert ({[name]} ∪ list_to_set names = (list_to_set names : gset string)) as ->.
      { apply subseteq_union_1_L, singleton_subseteq_l, elem_of_list_to_set, Hin. }
      split; [lia|]. rewrite list.NoDup_cons. split; [lia | tauto].
    + assert (size ({[name]} ∪ list_to_set names : gset string)
              = S (size (list_to_set names : gset string))) as ->.
      { rewrite size_union, size_singleton; [done|].
        apply disjoint_singleton_l. by rewrite elem_of_list_to_set. }
      split; [lia|]. rewrite list.NoDup_cons. split.
      * intros Heq. split; [done|]. apply IHeq. lia.
      * intros [_ Hnd]. apply IHeq in Hnd. lia.
Qed.

Lemma zipArchive_size (queue : list Item.t) :
  size (zipArchive queue) = size (list_to_set (zipFiles queue).*1 : gset string).
Proof.
  unfold zipArchive.
  rewrite <- (size_dom (D:=gset string)), foldl_insert_dom, dom_empty_L.
  by rewrite (left_id_L ∅ (∪)).
Qed.

(** X13.  When every file loads, [processQueue] ends normally and takes
    each item that was pending to 'completed', with a result, or to 'error';
    it leaves every other item, and the id, file, name and order of all, as
    they were.  The counter grows by the number of items that became
    completed, which is the number of [zip.file] calls [downloadAll] gains.
    The archive [downloadAll] then builds holds at most as many files as it
    makes [zip.file] calls, one for each completed item, and as many
    exactly when no two of these calls give the same name. *)
Theorem processQueue_outcome (P : Platform)
    (loadImage : File.t -> option ImageData.t) (st : ProcessorState) :
  (forall item, In item (imageQueue st) -> is_Some (loadImage (Item.file item))) ->
  exists st',
    processQueue P loadImage st = QueueDone st'
    /\ Forall2
         (fun item item' =>
            Item.id item' = Item.id item
            /\ Item.file item' = Item.file item
            /\ Item.name item' = Item.name item
            /\ Item.originalImg item' = loadImage (Item.file item)
            /\ if decide (Item.status item = StatusPending)
               then (Item.status item' = StatusCompleted
                     /\ is_Some (Item.processedBlob item'))
                    \/ (Item.status item' = StatusError
                        /\ Item.processedBlob item' = Item.processedBlob item)
               else Item.status item' = Item.status item
                    /\ Item.processedBlob item' = Item.processedBlob item)
         (imageQueue st) (imageQueue st')
    /\ processedCount st' + Z.of_nat (length (zipFiles (imageQueue st)))
       = processedCount st + Z.of_nat (length (zipFiles (imageQueue st')))
    /\ (size (zipArchive (imageQueue st')) <= length (zipFiles (imageQueue st')))%nat
    /\ (size (zipArchive (imageQueue st')) = length (zipFiles (imageQueue st'))
        <-> NoDup (zipFiles (imageQueue st')).*1).
Proof.
  intros Hall.
  destruct (processQueue P loadImage st) as [st'|st'] eqn:Hrun.
  2: { unfold processQueue in Hrun.
       rewrite (proj2 (all_loaded_spec loadImage (imageQueue st)) Hall) in Hrun.
       by destruct (processBatches _ _ _) as [[? ?] ?]. }
  exists st'. split; [done|].
  destruct (processQueue_done _ _ _ _ Hrun) as [_ Hpass].
  destruct (passWith_processItem _ _ _ _ _ Hpass) as [Hsteps Hcount].
  cbn [fst snd] in Hcount. rewrite zipFiles_loaded in Hcount.
  split; [|split; [done|]].
  2: { rewrite zipArchive_size.
       destruct (distinct_names_count (zipFiles (imageQueue st')).*1)
         as [Hle Heq].
       rewrite length_fmap in Hle, Heq. by split. }
  apply Forall_forall in Hall. clear Hrun Hpass Hcount.
  revert Hall Hsteps. generalize (imageQueue st') as queue'.
  induction (imageQueue st) as [|item queue IH]; intros queue' Hall Hsteps.
  - inversion Hsteps. constructor.
  - cbn [map] in Hsteps. inversion Hsteps as [|item1 item' l1 rest Hstep Hrest];
      subst. inversion Hall as [|? ? [img Himg] Hall']; subst.
    constructor; [|by apply IH].
    destruct Hstep as (Hid & Hfile & Hname & Horig & Hstatus).
    destruct (loadItem_fields loadImage item)
      as (Eid & Efile & Ename & Est & Eblob & Eimg).
    rewrite Himg in Eimg. rewrite Est in Hstatus.
    split; [congruence|]. split; [congruence|]. split; [congruence|].
    split; [congruence|].
    destruct (decide (Item.status item = StatusPending)).
    + destruct Hstatus as [Hdone | [Herr Hblob]]; [by left | right].
      split; [done | congruence].
    + subst item'. by split.
Qed.

Lemma processQueue_outcome_witness :
  let st := exampleQueue [File.mk "a.png" "image/png" 5000;
                          File.mk "a.jpg" "image/jpeg" 5000;
                          File.mk "b.png" "image/png" 1] in
  exists st',
    processQueue examplePlatform exampleLoad st = QueueDone st'
    /\ Forall2
         (fun item item' =>
            Item.id item' = Item.id item
            /\ Item.file item' = Item.file item
            /\ Item.name item' = Item.name item
            /\ Item.originalImg item' = exampleLoad (Item.file item)
            /\ if decide (Item.status item = StatusPending)
               then (Item.status item' = StatusCompleted
                     /\ is_Some (Item.processedBlob item'))
                    \/ (Item.status item' = StatusError
                        /\ Item.processedBlob item' = Item.processedBlob item)
               else Item.status item' = Item.status item
                    /\ Item.processedBlob item' = Item.processedBlob item)
         (imageQueue st) (imageQueue st')
    /\ processedCount st' + Z.of_nat (length (zipFiles (imageQueue st)))
       = processedCount st + Z.of_nat (length (zipFiles (imageQueue st')))
    /\ (size (zipArchive (imageQueue st')) <= length (zipFiles (imageQueue st')))%nat
    /\ (size (zipArchive (imageQueue st')) = length (zipFiles (imageQueue st'))
        <-> NoDup (zipFiles (imageQueue st')).*1).
Proof.
  apply (processQueue_outcome examplePlatform exampleLoad).
  apply all_loaded_spec. reflexivity.
Defined.

(** Two files whose names differ in the extension only, and one that
    decodes to an image without pixels: the first two are completed, the
    counter is 2, [downloadAll] calls [zip.file] twice and the archive holds
    one file. *)
Example archive_name_collision :
  let st := exampleQueue [File.mk "a.png" "image/png" 5000;
                          File.mk "a.jpg" "image/jpeg" 5000;
                          File.mk "b.png" "image/png" 1] in
  match processQueue examplePlatform exampleLoad st with
  | QueueDone st' =>
      map Item.status (imageQueue st')
      = [StatusCompleted; StatusCompleted; StatusError]
      /\ processedCount st' = 2
      /\ (zipFiles (imageQueue st')).*1
         = ["unwatermarked_a.png"; "unwatermarked_a.png"]
      /\ size (zipArchive (imageQueue st')) = 1%nat
  | LoadRejected _ => False
  end.
Proof. vm_compute. repeat split. Qed.

Lemma forallb_false_ex {A} (f : A -> bool) (l : list A) :
  forallb f l = false -> exists a, In a l /\ f a = false.
Proof.
  induction l as [|a l IH]; cbn; [done|].
  destruct (f a) eqn:Ea; cbn.
  - intros Hl. destruct (IH Hl) as (b & Hin & Hb). by eauto.
  - intros _. by eauto.
Qed.

(** X14.  [processQueue] loads every file before it processes any: it ends
    with the rejection of a load exactly when some file of the queue fails
    to load, and then no item has changed status or result, the counter
    and the engine are as before, and only the images of the files that did
    load have been stored. *)
Theorem processQueue_load_failure (P : Platform)
    (loadImage : File.t -> option ImageData.t) (st : ProcessorState) :
  ((exists item, In item (imageQueue st) /\ loadImage (Item.file item) = None)
   <-> exists st', processQueue P loadImage st = LoadRejected st')
  /\ forall st',
       processQueue P loadImage st = LoadRejected st' ->
       engine st' = engine st
       /\ processedCount st' = processedCount st
       /\ Item.status <$> imageQueue st' = Item.status <$> imageQueue st
       /\ Item.processedBlob <$> imageQueue st'
          = Item.processedBlob <$> imageQueue st
       /\ Item.id <$> imageQueue st' = Item.id <$> imageQueue st
       /\ Forall2 (fun item item' =>
                     Item.originalImg item'
                     = match loadImage (Item.file item) with
                       | Some img => Some img
                       | None => Item.originalImg item
                       end)
                  (imageQueue st) (imageQueue st').
Proof.
  assert (forall st', processQueue P loadImage st = LoadRejected st' ->
            st' = {| engine := engine st;
                     imageQueue := map (loadItem loadImage) (imageQueue st);
                     processedCount := processedCount st |}
            /\ exists item, In item (imageQueue st)
                            /\ loadImage (Item.file item) = None) as Hrej.
  { intros st'. unfold processQueue.
    destruct (forallb _ (imageQueue st)) eqn:Hall.
    - by destruct (processBatches _ _ _) as [[? ?] ?].
    - intros [= <-]. split; [done|].
      apply forallb_false_ex in Hall as (item & Hin & Hload).
      exists item. split; [done|].
      apply bool_decide_eq_false_1 in Hload.
      destruct (loadImage (Item.file item)); [|done].
      exfalso. apply Hload. by eexists. }
  split; [split|].
  - intros (item & Hin & Hload).
    destruct (processQueue P loadImage st) as [st'|st'] eqn:Hrun; [|by eauto].
    destruct (processQueue_done _ _ _ _ Hrun) as [Hall _].
    destruct (Hall item Hin) as [img Himg]. congruence.
  - intros [st' Hrun]. by destruct (Hrej st' Hrun).
  - intros st' Hrun. destruct (Hrej st' Hrun) as [-> _].
    cbn [engine processedCount imageQueue].
    split; [done|]. split; [done|]. clear Hrej Hrun.
    induction (imageQueue st) as [|item queue IH]; [by repeat split|].
    destruct IH as (Hs & Hb & Hi & Ho).
    destruct (loadItem_fields loadImage item) as (Eid & _ & _ & Est & Eblob & Eimg).
    cbn [map]. rewrite !fmap_cons, Hs, Hb, Hi, Eid, Est, Eblob.
    repeat split; try done. by constructor.
Qed.

Lemma removal_keeps_engine (P : Platform) (eng eng' : WatermarkEngine)
    (image out : ImageData.t) (watermarkType : option string) :
  cacheSound P eng ->
  removeWatermarkFromImage P eng image watermarkType = Normal (eng', out) ->
  cacheSound P eng' /\ withEmptyCache eng' = withEmptyCache eng.
Proof.
  intros Hsound Hcall.
  destruct (removeWatermarkFromImage_normal _ _ _ _ _ _ Hcall)
    as (alphaMap & Hget & _).
  destruct (getAlphaMap_cacheSound _ _ _ _ _ _ _ Hsound Hget) as (_ & Hc & Hs).
  destruct (getAlphaMap_fields _ _ _ _ _ Hget) as (_ & Ht & _).
  split; [done|]. unfold withEmptyCache. by rewrite Hc, Ht.
Qed.

Lemma passWith_alone (P : Platform) (base : WatermarkEngine)
    (queue : list Item.t) :
  forall (eng : WatermarkEngine) (count : Z) (acc' : option WatermarkEngine * Z)
         (queue' : list Item.t),
    cacheSound P eng -> withEmptyCache eng = base ->
    passWith (processItem P) (Some eng, count) queue = (acc', queue') ->
    Forall2 (fun item item' =>
               Item.status item = StatusPending ->
               forall img, Item.originalImg item = Some img ->
                           endsAsAlone P base img item item')
            queue queue'
    /\ exists eng', acc'.1 = Some eng' /\ cacheSound P eng'
                    /\ withEmptyCache eng' = base.
Proof.
  induction queue as [|item queue IH];
    intros eng count acc' queue' Hsound Hbase; cbn [passWith].
  - intros [= <- <-]. split; [constructor | by eauto].
  - destruct (processItem P (Some eng, count) item) as [acc1 item1] eqn:Hitem.
    destruct (passWith (processItem P) acc1 queue) as [acc2 rest] eqn:Hrest.
    intros [= <- <-].
    assert ((Item.status item = StatusPending ->
             forall img, Item.originalImg item = Some img ->
                         endsAsAlone P base img item item1)
            /\ exists eng1 count1, acc1 = (Some eng1, count1)
                 /\ cacheSound P eng1 /\ withEmptyCache eng1 = base)
      as (Hfirst & eng1 & count1 & -> & Hsound1 & Hbase1).
    { unfold processItem in Hitem. cbn [fst snd] in Hitem.
      destruct (decide (Item.status item = StatusPending)) as [Hp | Hp].
      - destruct (Item.originalImg item) as [img|] eqn:Himg.
        + pose proof (removal_ignores_cache P eng img None Hsound) as Hsame.
          rewrite Hbase in Hsame.
          destruct (removeWatermarkFromImage P eng img None)
            as [[eng1 out]|e] eqn:Hcall.
          * injection Hitem as <- <-.
            destruct (removal_keeps_engine _ _ _ _ _ _ Hsound Hcall)
              as [Hsound1 Hbase1].
            split; [|exists eng1, (count + 1); by rewrite Hbase1, Hbase].
            intros _ img' [= <-]. unfold endsAsAlone. by rewrite <- Hsame.
          * injection Hitem as <- <-.
            split; [|by exists eng, count].
            intros _ img' [= <-]. unfold endsAsAlone. by rewrite <- Hsame.
        + injection Hitem as <- <-. split; [done | by exists eng, count].
      - injection Hitem as <- <-. split; [done | by exists eng, count]. }
    destruct (IH _ _ _ _ Hsound1 Hbase1 Hrest) as [Hsteps Hend].
    split; [by constructor | done].
Qed.

(** X15.  What becomes of an item does not depend on the rest of the
    queue.  On an engine reached by calls (its cache sound), each item that
    was pending ends completed with exactly the pixels that
    [removeWatermarkFromImage] returns for its image on the same engine with
    an empty cache, or ends failed exactly when that call throws; a failed
    item neither stops the queue nor changes what the others get. *)
Theorem queue_items_independent (P : Platform)
    (loadImage : File.t -> option ImageData.t) (st st' : ProcessorState)
    (eng : WatermarkEngine) :
  engine st = Some eng -> cacheSound P eng ->
  processQueue P loadImage st = QueueDone st' ->
  Forall2 (fun item item' =>
             Item.status item = StatusPending ->
             exists img, loadImage (Item.file item) = Some img
                         /\ endsAsAlone P (withEmptyCache eng) img item item')
          (imageQueue st) (imageQueue st')
  /\ exists eng', engine st' = Some eng' /\ cacheSound P eng'
                  /\ withEmptyCache eng' = withEmptyCache eng.
Proof.
  intros Heng Hsound Hrun.
  destruct (processQueue_done _ _ _ _ Hrun) as [Hall Hpass].
  rewrite Heng in Hpass.
  destruct (passWith_alone P (withEmptyCache eng) _ _ _ _ _ Hsound eq_refl Hpass)
    as [Hsteps Hend].
  split; [|done]. apply Forall_forall in Hall. clear Hrun Hpass Hend Heng.
  revert Hall Hsteps. generalize (imageQueue st') as queue'.
  induction (imageQueue st) as [|item queue IH]; intros queue' Hall Hsteps.
  - inversion Hsteps. constructor.
  - cbn [map] in Hsteps. inversion Hsteps as [|item1 item' l1 rest Hstep Hrest];
      subst. inversion Hall as [|? ? [img Himg] Hall']; subst.
    constructor; [|by apply IH].
    destruct (loadItem_fields loadImage item)
      as (_ & _ & _ & Est & Eblob & Eimg).
    rewrite Himg in Eimg. rewrite Est in Hstep.
    intros Hp. exists img. split; [done|].
    specialize (Hstep Hp img Eimg). unfold endsAsAlone in *.
    destruct (pixelsOf _); [done|]. by rewrite <- Eblob.
Qed.

Lemma queue_items_independent_witness :
  let st := exampleQueue [File.mk "a.png" "image/png" 5000;
                          File.mk "b.png" "image/png" 1;
                          File.mk "c.png" "image/png" 7000] in
  exists st',
    processQueue examplePlatform exampleLoad st = QueueDone st'
    /\ Item.status <$> imageQueue st'
       = [StatusCompleted; StatusError; StatusCompleted]
    /\ processedCount st' = 2
    /\ Forall2 (fun item item' =>
                  Item.status item = StatusPending ->
                  exists img, exampleLoad (Item.file item) = Some img
                              /\ endsAsAlone examplePlatform
                                   (withEmptyCache exampleEngine) img item item')
               (imageQueue st) (imageQueue st')
    /\ exists eng', engine st' = Some eng' /\ cacheSound examplePlatform eng'
                    /\ withEmptyCache eng' = withEmptyCache exampleEngine.
Proof.
  eexists. split; [vm_compute; reflexivity|].
  split; [reflexivity|]. split; [reflexivity|].
  eapply (queue_items_independent examplePlatform exampleLoad _ _ exampleEngine).
  - reflexivity.
  - apply newWatermarkEngine_cacheSound.
  - vm_compute. reflexivity.
Defined.

(** ** Download names *)

Lemma hasDot_app (s1 s2 : string) :
  hasDot (s1 +:+ s2) = hasDot s1 || hasDot s2.
Proof.
  induction s1 as [|c s1 IH]; [done|].
  rewrite append_String. cbn [hasDot]. by rewrite IH, orb_assoc.
Qed.

Lemma stripExtension_no_dot (s : string) :
  hasDot s = false -> stripExtension s = s.
Proof.
  induction s as [|c s IH]; [done|]. cbn [hasDot]. intros Hdot.
  apply orb_false_elim in Hdot as [Hc Hs].
  cbn [stripExtension]. unfold extensionAtHead. rewrite Hc.
  destruct s; cbn [andb]; by rewrite IH.
Qed.

Lemma extensionAtHead_inner (c : ascii) (s ext : string) :
  extensionAtHead (String c (s +:+ "." +:+ ext)) = false.
Proof.
  unfold extensionAtHead.
  destruct (s +:+ "." +:+ ext) as [|d rest] eqn:E; [done|].
  rewrite <- E, hasDot_app. cbn [hasDot isDot].
  change (Ascii.eqb "." ".") with true. cbn [orb].
  by rewrite orb_true_r, andb_false_r.
Qed.

Lemma stripExtension_ext (stem e : string) :
  e <> EmptyString -> hasDot e = false ->
  stripExtension (stem +:+ "." +:+ e) = stem.
Proof.
  intros He Hdot. induction stem as [|c stem IH].
  - rewrite append_Empty. destruct e as [|d e]; [done|].
    rewrite append_String, append_Empty.
    cbn [stripExtension extensionAtHead isDot].
    change (Ascii.eqb "." ".") with true. by rewrite Hdot.
  - rewrite append_String. cbn [stripExtension].
    by rewrite extensionAtHead_inner, IH.
Qed.

Lemma stripExtension_trailing_dot (stem : string) :
  stripExtension (stem +:+ ".") = stem +:+ ".".
Proof.
  induction stem as [|c stem IH]; [done|].
  rewrite append_String. cbn [stripExtension].
  assert (extensionAtHead (String c (stem +:+ ".")) = false) as ->.
  { unfold extensionAtHead. destruct (stem +:+ ".") as [|d rest] eqn:E; [done|].
    rewrite <- E, hasDot_app. cbn [hasDot isDot].
    change (Ascii.eqb "." ".") with true.
    by rewrite orb_true_r, andb_false_r. }
  by rewrite IH.
Qed.

(** X16.  The download name drops the last extension and nothing else: a
    name made of any stem, a dot and a non-empty extension without dots
    gives 'unwatermarked_' + stem + '.png', also when the stem has dots of its
    own; a name without a dot, or one that ends in a dot, is kept whole.  So
    two files that differ only in their extension get the same download
    name. *)
Theorem downloadName_drops_extension (stem ext ext' : string) :
  ext <> EmptyString -> hasDot ext = false ->
  ext' <> EmptyString -> hasDot ext' = false ->
  downloadName (stem +:+ "." +:+ ext) = "unwatermarked_" +:+ stem +:+ ".png"
  /\ downloadName (stem +:+ "." +:+ ext) = downloadName (stem +:+ "." +:+ ext')
  /\ downloadName (stem +:+ ".") = "unwatermarked_" +:+ (stem +:+ ".") +:+ ".png"
  /\ (hasDot stem = false ->
      downloadName stem = "unwatermarked_" +:+ stem +:+ ".png").
Proof.
  intros He Hd He' Hd'. unfold downloadName.
  rewrite !stripExtension_ext, stripExtension_trailing_dot by done.
  repeat split. intros Hstem. by rewrite stripExtension_no_dot.
Qed.

Lemma downloadName_drops_extension_witness :
  downloadName ("holiday.2024" +:+ "." +:+ "jpeg")
  = "unwatermarked_" +:+ "holiday.2024" +:+ ".png"
  /\ downloadName ("holiday.2024" +:+ "." +:+ "jpeg")
     = downloadName ("holiday.2024" +:+ "." +:+ "webp")
  /\ downloadName ("holiday.2024" +:+ ".")
     = "unwatermarked_" +:+ ("holiday.2024" +:+ ".") +:+ ".png"
  /\ (hasDot "holiday.2024" = false ->
      downloadName "holiday.2024" = "unwatermarked_" +:+ "holiday.2024" +:+ ".png").
Proof.
  apply (downloadName_drops_extension "holiday.2024" "jpeg" "webp"); done.
Defined.

(** ** The provenance message *)

Lemma t_not_empty (translations : gmap string string) (key : string) :
  key <> EmptyString -> I18n.t translations key <> EmptyString.
Proof.
  intros Hkey. unfold I18n.t.
  destruct (translations !! key) as [text|]; [|done].
  destruct (String.eqb_spec text EmptyString); done.
Qed.

(** X17.  The message of [getOriginalStatus] for the result of
    [checkOriginal] is empty in one case only: the metadata was read, holds
    a width and a height that are not zero, and the source fits the type,
    which for 'doubao' is always so and for 'gemini' means the credit 'Made
    with Google AI'.  For any other type, and whenever reading the metadata
    throws, there is a message, whatever the translations hold. *)
Theorem original_status_empty_iff (translations : gmap string string)
    (parse : ExifParse) (requested : string) :
  getOriginalStatus translations (checkOriginal parse requested)
  = EmptyString
  <-> exists e,
        parse = Parsed (Some e)
        /\ truthy (ImageWidth e) = true /\ truthy (ImageHeight e) = true
        /\ (requested = WATERMARK_TYPE.DOUBAO
            \/ (requested = WATERMARK_TYPE.GEMINI
                /\ Credit e = Some "Made with Google AI")).
Proof.
  assert (forall check,
            getOriginalStatus translations check = EmptyString
            <-> is_valid_source check = true /\ is_original check = true)
    as Hstatus.
  { intros check. unfold getOriginalStatus.
    destruct (is_valid_source check); cbn [negb].
    - destruct (is_original check); cbn [negb]; [by split|].
      split; [|by intros [_ ?]]. intros Ht. by apply t_not_empty in Ht.
    - split; [|by intros [? _]]. intros Ht. exfalso.
      destruct (String.eqb_spec
                  (I18n.t translations ("original.not_" +:+ watermarkType check))
                  ("original.not_" +:+ watermarkType check)) as [Heq | Hne].
      + by apply t_not_empty in Ht.
      + by apply t_not_empty in Ht. }
  rewrite Hstatus. unfold checkOriginal.
  destruct parse as [|[e|]]; cbn [is_valid_source is_original].
  - split; [by intros [_ ?] | by intros (e & ? & _)].
  - destruct (String.eqb_spec requested WATERMARK_TYPE.GEMINI) as [-> | Hg].
    + split.
      * intros [Hcredit Hdims]. apply andb_prop in Hdims as [Hw Hh].
        exists e. repeat split; try done. right. split; [done|].
        destruct (Credit e) as [credit|]; [|done].
        by apply String.eqb_eq in Hcredit as ->.
      * intros (e' & [= <-] & Hw & Hh & [Hd | [_ Hcredit]]); [done|].
        rewrite Hcredit, Hw, Hh. by rewrite String.eqb_refl.
    + destruct (String.eqb_spec requested WATERMARK_TYPE.DOUBAO) as [-> | Hd].
      * split.
        -- intros [_ Hdims]. apply andb_prop in Hdims as [Hw Hh].
           exists e. repeat split; try done. by left.
        -- intros (e' & [= <-] & Hw & Hh & _). by rewrite Hw, Hh.
      * split; [by intros [? _]|].
        intros (e' & _ & _ & _ & [? | [? _]]); done.
  - split; [|by intros (e & ? & _)].
    intros [_ ?]. done.
Qed.
